(** * Slots: a named-slot execution throttler (src/slots.ts)

    A shallow embedding of [slots.ts] and the verification of its
    specification.

    The module keeps one global record [MySlots] from slot names to
    [SlotInfo] objects.  [start] is an [async] function: it runs
    synchronously up to its first [await], and each [await] suspends the
    call until a timer expires or a promise settles.  The embedding makes
    this explicit:

    - the JavaScript heap of [SlotContext] objects is a list indexed by
      allocation order; a context is referred to by its address, so that
      the aliasing between [slotInfo.context] and the [context] captured by
      a suspended call is kept;
    - promises returned by handlers live in a second heap of promise states;
    - every suspended [start] call is a [Task] in the [queue] of the world,
      tagged with the [await] at which it is suspended;
    - each synchronous segment of [start] (entry to first [await], and from
      one [await] to the next or to the end) is a function on worlds;
    - the event loop is a set of operations ([Op]) the environment may
      perform in any order: API calls, the passing of time, the settling of
      a handler's promise and the resumption of a suspended call whose wait
      is over.  Reactions on one promise run in registration order, as
      JavaScript guarantees; nothing else is assumed about the scheduler,
      so every execution of the event loop is a run of [exec].

    Handlers are opaque user functions: a handler either returns
    [undefined], throws, or returns a promise that the environment settles
    later.  A handler does not call back into the registry from its own
    synchronous body.  Slot names are ordinary keys of [MySlots] (not names
    inherited from [Object.prototype]). Times and periods are integral
    milliseconds. *)

From stdpp Require Import base option list gmap strings fin_maps sorting.
From Stdlib Require Import ZArith Lia Sorting.Sorted.


(** ** Data model *)

(** [type Millis = number] *)
Abbreviation Millis := Z (only parsing).

(** [type SlotContext = { cancel?: boolean }] *)
Record SlotContext := mkContext { cancel : option bool }.

(** JavaScript truthiness of an optional boolean field. *)
Definition truthy (b : option bool) : bool := default false b.

(** Addresses of [SlotContext] objects and of handler promises. *)
Abbreviation ContextRef := nat (only parsing).
Abbreviation PromiseRef := nat (only parsing).

(** [type SlotInfo = { context, lastTriggered?, executing? }] *)
Record SlotInfo := mkInfo {
  context : ContextRef;
  lastTriggered : option Z;
  executing : option PromiseRef
}.

(** [mode: "push"|"ignore"|"cooldown"] *)
Inductive Mode := push | ignore | cooldown.

(** What a call [handler(context)] does: [void | Promise<void>], or an
    exception. *)
Inductive HandlerResult := ReturnsVoid | Raises | ReturnsPromise.

(** [type SlotHandler = (context: SlotContext) => void | Promise<void>] *)
Record SlotHandler := mkHandler { hname : string; hresult : HandlerResult }.

Inductive PromiseState := Pending | Fulfilled | Rejected.

(** The [await] at which a [start] call is suspended. *)
Inductive Suspended :=
| AwaitTimer (due : Z)             (* line 158: await new Promise(setTimeout) *)
| AwaitExecuting (p : PromiseRef)  (* line 170: await slotInfo.executing *)
| AwaitHandler (p : PromiseRef).   (* line 185: await slotInfo.executing (own) *)

(** A suspended [start] call: the variables its continuation captures. *)
Record Task := mkTask {
  t_slot : string;
  t_context : ContextRef;
  t_handler : SlotHandler;
  t_at : Suspended
}.

(** How a [start] call's promise settles. *)
Inductive Exit :=
| Dropped                  (* line 151 *)
| CanceledAfterTimer       (* line 165 *)
| CanceledAfterExecuting   (* line 177 *)
| Completed.               (* line 193 *)

(** Observable events. A [start] call is identified by the context it
    allocates at line 125. *)
Inductive Event :=
| EvInvoke (c : ContextRef) (slot : string) (h : SlotHandler) (time : Z)
| EvReturn (c : ContextRef) (e : Exit)
| EvThrow (c : ContextRef).

Record World := mkWorld {
  MySlots : gmap string SlotInfo;
  heap : list SlotContext;
  promises : list PromiseState;
  queue : list Task;
  clock : Z;
  trace : list Event
}.

#[global] Instance Mode_eq_dec : EqDecision Mode.
Proof. solve_decision. Defined.
#[global] Instance HandlerResult_eq_dec : EqDecision HandlerResult.
Proof. solve_decision. Defined.
#[global] Instance SlotHandler_eq_dec : EqDecision SlotHandler.
Proof. solve_decision. Defined.
#[global] Instance PromiseState_eq_dec : EqDecision PromiseState.
Proof. solve_decision. Defined.
#[global] Instance Suspended_eq_dec : EqDecision Suspended.
Proof. solve_decision. Defined.
#[global] Instance Task_eq_dec : EqDecision Task.
Proof. solve_decision. Defined.
#[global] Instance Exit_eq_dec : EqDecision Exit.
Proof. solve_decision. Defined.
#[global] Instance Event_eq_dec : EqDecision Event.
Proof. solve_decision. Defined.

(** ** Primitive state updates *)

Definition with_slots (f : gmap string SlotInfo → gmap string SlotInfo) (w : World) : World :=
  mkWorld (f (MySlots w)) (heap w) (promises w) (queue w) (clock w) (trace w).

Definition with_heap (f : list SlotContext → list SlotContext) (w : World) : World :=
  mkWorld (MySlots w) (f (heap w)) (promises w) (queue w) (clock w) (trace w).

Definition with_promises (f : list PromiseState → list PromiseState) (w : World) : World :=
  mkWorld (MySlots w) (heap w) (f (promises w)) (queue w) (clock w) (trace w).

Definition with_queue (f : list Task → list Task) (w : World) : World :=
  mkWorld (MySlots w) (heap w) (promises w) (f (queue w)) (clock w) (trace w).

Definition with_clock (t : Z) (w : World) : World :=
  mkWorld (MySlots w) (heap w) (promises w) (queue w) t (trace w).

(** Append an event to the trace. *)
Definition emit (e : Event) (w : World) : World :=
  mkWorld (MySlots w) (heap w) (promises w) (queue w) (clock w) (trace w ++ [e]).

(** [context.cancel], read for truthiness. *)
Definition is_canceled (w : World) (c : ContextRef) : bool :=
  match heap w !! c with
  | Some x => truthy (cancel x)
  | None => false
  end.

(** [context.cancel = true] *)
Definition set_cancel (c : ContextRef) (w : World) : World :=
  with_heap (λ h, <[c := mkContext (Some true)]> h) w.

(** Allocate a context object; its address is the old heap size. *)
Definition alloc (x : SlotContext) (w : World) : World :=
  with_heap (λ h, h ++ [x]) w.

(** Field updates of the [SlotInfo] object of a slot. *)
Definition set_context (slot : string) (c : ContextRef) (w : World) : World :=
  with_slots (alter (λ i, mkInfo c (lastTriggered i) (executing i)) slot) w.

Definition set_lastTriggered (slot : string) (t : Z) (w : World) : World :=
  with_slots (alter (λ i, mkInfo (context i) (Some t) (executing i)) slot) w.

Definition set_executing (slot : string) (p : option PromiseRef) (w : World) : World :=
  with_slots (alter (λ i, mkInfo (context i) (lastTriggered i) p) slot) w.

(** Suspend a call. *)
Definition suspend (t : Task) (w : World) : World :=
  with_queue (λ q, q ++ [t]) w.

Definition lookup_slot (w : World) (slot : string) : option SlotInfo :=
  MySlots w !! slot.

Definition executing_of (w : World) (slot : string) : option PromiseRef :=
  lookup_slot w slot ≫= executing.

Definition lastTriggered_of (w : World) (slot : string) : option Z :=
  lookup_slot w slot ≫= lastTriggered.

(** ** The module [slots.ts] *)

Module Slots.

(** [getOrCreateSlotInfo], lines 49-61. *)
Definition getOrCreateSlotInfo (slot : string) (w : World) : World * SlotInfo :=
  match MySlots w !! slot with
  | Some slotInfo => (w, slotInfo)
  | None =>
      let slotInfo := mkInfo (length (heap w)) None None in
      let w := alloc (mkContext (Some true)) w in
      let w := set_cancel (context slotInfo) w in
      (with_slots (insert slot slotInfo) w, slotInfo)
  end.

(** [timeNow], lines 64-66. *)
Definition timeNow (w : World) : Z := clock w.

(** [onCD], lines 72-76. *)
Definition onCD (slot : string) (period : Millis) (w : World) : World * bool :=
  let '(w, slotInfo) := getOrCreateSlotInfo slot w in
  let timeToNext := (default (- period) (lastTriggered slotInfo) + period - timeNow w)%Z in
  (w, negb (timeToNext <=? 0)%Z).

(** Lines 188-192: the handler's promise has been awaited. *)
Definition finish (t : Task) (w : World) : World :=
  let w := set_executing (t_slot t) None w in     (* delete(slotInfo.executing) *)
  let w := set_cancel (t_context t) w in          (* context.cancel = true *)
  emit (EvReturn (t_context t) Completed) w.

(** Lines 177-193: second cancellation check, then the invocation. *)
Definition trigger (t : Task) (w : World) : World :=
  if is_canceled w (t_context t) then emit (EvReturn (t_context t) CanceledAfterExecuting) w
  else
    let w := set_lastTriggered (t_slot t)
               (Z.max (default (timeNow w) (lastTriggered_of w (t_slot t))) (timeNow w)) w in
    let w := emit (EvInvoke (t_context t) (t_slot t) (t_handler t) (timeNow w)) w in
    match hresult (t_handler t) with
    | Raises => emit (EvThrow (t_context t)) w
    | ReturnsVoid =>
        let w := set_cancel (t_context t) w in
        emit (EvReturn (t_context t) Completed) w
    | ReturnsPromise =>
        let p := length (promises w) in
        let w := with_promises (λ ps, ps ++ [Pending]) w in
        let w := set_executing (t_slot t) (Some p) w in
        suspend (mkTask (t_slot t) (t_context t) (t_handler t) (AwaitHandler p)) w
    end.

(** Lines 165-170: first cancellation check, then the wait for the
    execution in flight. *)
Definition expire (t : Task) (w : World) : World :=
  if is_canceled w (t_context t) then emit (EvReturn (t_context t) CanceledAfterTimer) w
  else
    match executing_of w (t_slot t) with
    | Some p => suspend (mkTask (t_slot t) (t_context t) (t_handler t) (AwaitExecuting p)) w
    | None => trigger t w
    end.

(** Lines 127-145: the period and mode a [cooldown] call continues with. *)
Definition resolve (slotInfo : SlotInfo) (mode : Mode) (period : Millis) (w : World)
  : Mode * Millis :=
  match mode with
  | cooldown =>
      let timeToNext := (default (- period) (lastTriggered slotInfo) + period - timeNow w)%Z in
      let period := Z.max timeToNext 0 in
      let period := if (timeToNext <=? 0)%Z then 0%Z else timeToNext in
      (ignore, period)
  | _ => (mode, period)
  end.

(** [start], lines 116-163: the synchronous segment from the call to its
    first [await] (or to its end). *)
Definition start (slot : string) (mode : Mode) (period : Millis) (handler : SlotHandler)
    (w : World) : World :=
  let '(w, slotInfo) := getOrCreateSlotInfo slot w in
  let current := context slotInfo in
  let context := length (heap w) in
  let w := alloc (mkContext None) w in
  let '(mode, period) := resolve slotInfo mode period w in
  let admitted :=
    match mode with
    | push => Some (set_cancel current w)
    | _ => if is_canceled w current then Some w else None
    end in
  match admitted with
  | None => emit (EvReturn context Dropped) w
  | Some w =>
      let w := set_context slot context w in
      if (period =? 0)%Z
      then expire (mkTask slot context handler (AwaitTimer (clock w))) w
      else suspend (mkTask slot context handler (AwaitTimer (clock w + period))) w
  end.

(** [cancel], lines 197-200. *)
Definition cancel (slot : string) (w : World) : World :=
  let '(w, slotInfo) := getOrCreateSlotInfo slot w in
  set_cancel (context slotInfo) w.

(** The continuation of a suspended call, given whether the awaited
    promise was fulfilled ([ok]) or rejected: an [await] of a rejected
    promise throws, and [start] has no handler for it. *)
Definition resume (t : Task) (ok : bool) (w : World) : World :=
  match t_at t with
  | AwaitTimer _ => expire t w
  | AwaitExecuting _ => if ok then trigger t w else emit (EvThrow (t_context t)) w
  | AwaitHandler _ => if ok then finish t w else emit (EvThrow (t_context t)) w
  end.

End Slots.

(** ** The event loop *)

(** The promise a suspended call awaits, if it awaits one. *)
Definition awaited (t : Task) : option PromiseRef :=
  match t_at t with
  | AwaitTimer _ => None
  | AwaitExecuting p | AwaitHandler p => Some p
  end.

Definition timer_due (t : Task) : option Z :=
  match t_at t with
  | AwaitTimer due => Some due
  | _ => None
  end.

Definition promise_state (w : World) (p : PromiseRef) : PromiseState :=
  default Pending (promises w !! p).

(** The wait of a suspended call is over. *)
Definition ready (w : World) (t : Task) : bool :=
  match t_at t with
  | AwaitTimer due => (due <=? clock w)%Z
  | AwaitExecuting p | AwaitHandler p => bool_decide (promise_state w p ≠ Pending)
  end.

(** Whether the [await] returns (or throws, for a rejected promise). *)
Definition outcome (w : World) (t : Task) : bool :=
  match awaited t with
  | None => true
  | Some p => bool_decide (promise_state w p = Fulfilled)
  end.

(** Reactions on one promise run in the order they were registered: the
    call at index [i] may resume only if no call suspended before it awaits
    the same promise. *)
Definition first_in_line (q : list Task) (i : nat) (t : Task) : bool :=
  match awaited t with
  | None => true
  | Some p => forallb (λ t', negb (bool_decide (awaited t' = Some p))) (take i q)
  end.

(** Resume the suspended call at index [i]. *)
Definition resume_at (i : nat) (w : World) : World :=
  match queue w !! i with
  | Some t => Slots.resume t (outcome w t) (with_queue (delete i) w)
  | None => w
  end.

(** What can happen: the three API calls, the passing of time, a handler's
    promise settling, and a suspended call resuming. *)
Inductive Op :=
| Start (slot : string) (mode : Mode) (period : Millis) (handler : SlotHandler)
| Cancel (slot : string)
| OnCD (slot : string) (period : Millis)
| Elapse (d : Z)
| Settle (p : PromiseRef) (ok : bool)
| Resume (i : nat).

(** One step of the event loop; [None] when the operation is not enabled. *)
Definition exec (o : Op) (w : World) : option World :=
  match o with
  | Start slot mode period handler => Some (Slots.start slot mode period handler w)
  | Cancel slot => Some (Slots.cancel slot w)
  | OnCD slot period => Some (fst (Slots.onCD slot period w))
  | Elapse d => if (0 <=? d)%Z then Some (with_clock (clock w + d) w) else None
  | Settle p ok =>
      if decide (promises w !! p = Some Pending)
      then Some (with_promises (λ ps, <[p := if ok then Fulfilled else Rejected]> ps) w)
      else None
  | Resume i =>
      match queue w !! i with
      | Some t => if ready w t && first_in_line (queue w) i t
                  then Some (resume_at i w) else None
      | None => None
      end
  end.

Fixpoint run (ops : list Op) (w : World) : option World :=
  match ops with
  | [] => Some w
  | o :: ops => exec o w ≫= run ops
  end.

(** The module as loaded: [MySlots = {}], nothing suspended. *)
Definition init (t0 : Z) : World := mkWorld ∅ [] [] [] t0 [].

Definition reachable (w : World) : Prop :=
  ∃ t0 ops, run ops (init t0) = Some w.

(** ** A punctual scheduler

    Timers that fire exactly when due and in order of their due time, each
    followed by the reactions that have become ready: the discipline of
    the fake clock the repository's tests install. *)

Fixpoint find_index (P : Task → bool) (q : list Task) : option nat :=
  match q with
  | [] => None
  | t :: q => if P t then Some 0 else S <$> find_index P q
  end.

Fixpoint least (l : list Z) : option Z :=
  match l with
  | [] => None
  | x :: l => Some (match least l with Some y => Z.min x y | None => x end)
  end.

(** The timer that is due first (the oldest one among equals). *)
Definition next_timer (w : World) : option (nat * Z) :=
  due ← least (omap timer_due (queue w));
  i ← find_index (λ t, bool_decide (timer_due t = Some due)) (queue w);
  Some (i, due).

(** The first suspended call whose awaited promise has settled. *)
Definition next_reaction (w : World) : option nat :=
  find_index (λ t, bool_decide (is_Some (awaited t)) && ready w t) (queue w).

Fixpoint drain (fuel : nat) (w : World) : World :=
  match fuel with
  | O => w
  | S fuel =>
      match next_reaction w with
      | Some i => drain fuel (resume_at i w)
      | None => w
      end
  end.

Fixpoint run_timers (fuel : nat) (target : Z) (w : World) : World :=
  match fuel with
  | O => w
  | S fuel =>
      match next_timer w with
      | Some (i, due) =>
          if (due <=? target)%Z
          then
            let w := with_clock (Z.max (clock w) due) w in
            let w := resume_at i w in
            run_timers fuel target (drain (length (queue w)) w)
          else w
      | None => w
      end
  end.

(** Let [d] milliseconds pass. *)
Definition tick (d : Z) (w : World) : World :=
  let target := (clock w + d)%Z in
  let w := drain (length (queue w)) w in
  with_clock target (run_timers (length (queue w)) target w).

(** The handler invocations of a trace. *)
Definition is_invoke (e : Event) : bool :=
  match e with EvInvoke _ _ _ _ => true | _ => false end.

Definition invocations (w : World) : list Event := filter (λ e, is_invoke e = true) (trace w).

(** The suspended calls of a slot whose handler has been invoked and whose
    promise they await: the executions in flight. *)
Definition is_execution (slot : string) (t : Task) : bool :=
  match t_at t with
  | AwaitHandler _ => bool_decide (t_slot t = slot)
  | _ => false
  end.

Definition executions (w : World) (slot : string) : list Task :=
  filter (λ t, is_execution slot t = true) (queue w).

(** ** Vocabulary of the specification *)

(** A slot is idle when its current context is canceled; a slot that was
    never referred to is created idle. *)
Definition idle (w : World) (slot : string) : bool :=
  match MySlots w !! slot with
  | Some i => is_canceled w (context i)
  | None => true
  end.

(** The admission check of [start]: [push] always passes, the other modes
    pass on an idle slot. *)
Definition admits (w : World) (slot : string) (mode : Mode) : bool :=
  match mode with
  | push => true
  | _ => idle w slot
  end.

(** The time left until the cooldown of a slot ends. *)
Definition timeToNext (w : World) (slot : string) (period : Z) : Z :=
  (default (- period) (lastTriggered_of w slot) + period - clock w)%Z.

(** The period a call waits for: recomputed for [cooldown]. *)
Definition effective_period (w : World) (slot : string) (mode : Mode) (period : Z) : Z :=
  match mode with
  | cooldown => Z.max 0 (timeToNext w slot period)
  | _ => period
  end.

(** Every [slotInfo.context] refers to an allocated object. *)
Definition contexts_allocated (w : World) : Prop :=
  ∀ slot i, MySlots w !! slot = Some i → context i < length (heap w).

(** The order on [lastTriggered?: number]: [undefined] first. *)
Definition le_opt (a b : option Z) : Prop :=
  match a, b with
  | None, _ => True
  | Some x, Some y => (x ≤ y)%Z
  | Some _, None => False
  end.

(** The world in which an admitted call continues after line 155. *)
Definition installed (slot : string) (w : World) : World :=
  let w1 := fst (Slots.getOrCreateSlotInfo slot w) in
  let i := snd (Slots.getOrCreateSlotInfo slot w) in
  set_context slot (length (heap w1)) (set_cancel (context i) (alloc (mkContext None) w1)).

(** The context a call of [start] allocates. *)
Definition fresh_context (slot : string) (w : World) : ContextRef :=
  length (heap (fst (Slots.getOrCreateSlotInfo slot w))).


(** What the invocation of a handler leaves in the trace and in the queue
    after the [EvInvoke] event, by what the handler does. *)
Definition after_invoke_trace (c : ContextRef) (h : SlotHandler) : list Event :=
  match hresult h with
  | ReturnsVoid => [EvReturn c Completed]
  | Raises => [EvThrow c]
  | ReturnsPromise => []
  end.

Definition after_invoke_queue (slot : string) (c : ContextRef) (h : SlotHandler)
    (p : PromiseRef) : list Task :=
  match hresult h with
  | ReturnsPromise => [mkTask slot c h (AwaitHandler p)]
  | _ => []
  end.



(** ** The invariant of the event loop *)

Definition context_of (w : World) (slot : string) : option ContextRef :=
  context <$> lookup_slot w slot.

Definition is_waiter (t : Task) : bool :=
  match t_at t with
  | AwaitExecuting _ => true
  | _ => false
  end.

(** [x] may stand before [y] in the queue: unless [x] is a call that waits
    at line 170 with its context not canceled and [y] is an execution in
    flight on the same slot. Such a waiter was suspended after the
    execution it waits for. *)
Definition before (w : World) (x y : Task) : Prop :=
  ¬ (is_waiter x = true ∧ is_canceled w (t_context x) = false
     ∧ is_execution (t_slot x) y = true).

Record Inv (w : World) : Prop := mkInv {
  (* references point into the heap *)
  inv_slots_alloc : contexts_allocated w;
  inv_tasks_alloc : ∀ t, t ∈ queue w → t_context t < length (heap w);
  (* a suspended call holds the [slotInfo] of an existing slot *)
  inv_slot_exists : ∀ t, t ∈ queue w → is_Some (MySlots w !! t_slot t);
  (* every call has a context of its own *)
  inv_nodup : NoDup (t_context <$> queue w);
  (* only the context last written into [slotInfo.context] can be live *)
  inv_current : ∀ t, t ∈ queue w → is_canceled w (t_context t) = false →
    context_of w (t_slot t) = Some (t_context t);
  (* an execution in flight is recorded in [slotInfo.executing] *)
  inv_owner : ∀ t p, t ∈ queue w → t_at t = AwaitHandler p →
    executing_of w (t_slot t) = Some p;
  inv_owner_unique : ∀ t t', t ∈ queue w → t' ∈ queue w →
    is_execution (t_slot t) t = true → is_execution (t_slot t) t' = true → t = t';
  (* a live waiter waits for the execution in flight, if there is one *)
  inv_waiter : ∀ t q o, t ∈ queue w → t_at t = AwaitExecuting q →
    is_canceled w (t_context t) = false → o ∈ queue w →
    is_execution (t_slot t) o = true → t_at o = AwaitHandler q;
  (* and was suspended after it *)
  inv_order : StronglySorted (before w) (queue w)
}.

(** What is known of a call about to continue, which is no longer in the
    queue. *)
Record Running (w : World) (t : Task) : Prop := mkRunning {
  run_alloc : t_context t < length (heap w);
  run_slot : is_Some (MySlots w !! t_slot t);
  run_fresh : t_context t ∉ (t_context <$> queue w);
  run_current : is_canceled w (t_context t) = false →
    context_of w (t_slot t) = Some (t_context t)
}.

(** No execution is in flight on the slot. *)
Definition no_execution (w : World) (slot : string) : Prop :=
  ∀ o, o ∈ queue w → is_execution slot o = false.

(** A handler that throws, and one whose promise the environment rejects. *)
Definition jest_fn_throws : SlotHandler := mkHandler "failing" Raises.
Definition jest_fn_rejects : SlotHandler := mkHandler "failing" ReturnsPromise.

(** The handlers of the repository's tests: [jest.fn()] and
    [jest.fn(async () => delay(3000))]. *)
Definition jest_fn : SlotHandler := mkHandler "handler" ReturnsVoid.
Definition jest_fn_async : SlotHandler := mkHandler "handler" ReturnsPromise.

(** ** Bursts of pushes *)

(** Calls [start(slot, "push", period, handler)] issued one after another;
    [gaps] is the time that passes between each call and the next. *)
Fixpoint push_burst (slot : string) (period : Z) (h : SlotHandler) (gaps : list Z)
    (w : World) : World :=
  match gaps with
  | [] => Slots.start slot push period h w
  | d :: gaps => push_burst slot period h gaps (tick d (Slots.start slot push period h w))
  end.

Definition sumZ (l : list Z) : Z := foldr Z.add 0%Z l.

(** The number of pending timers. *)
Definition count_timers (w : World) : nat := length (omap timer_due (queue w)).

(** No suspended call has a settled promise to react to. *)
Definition quiet (w : World) : Prop :=
  ∀ t p, t ∈ queue w → awaited t = Some p → promise_state w p = Pending.

(** The state of a slot during a burst of pushes: the call with context
    [cur] is the last one issued and waits for its timer, due at [T]; the
    calls with contexts [olds] have been superseded; no handler was invoked
    since the burst began with the invocations [base]. *)
Record Burst (slot : string) (h : SlotHandler) (period T : Z) (cur : ContextRef)
    (olds : list ContextRef) (base : list Event) (w : World) : Prop := mkBurst {
  b_inv : Inv w;
  b_executing : executing_of w slot = None;
  b_current : context_of w slot = Some cur;
  b_live : is_canceled w cur = false;
  b_heap : length (heap w) = S cur;
  b_clock : (T - period ≤ clock w ≤ T)%Z;
  b_queue : ∀ t, t ∈ queue w →
    t_slot t = slot ∧ t_handler t = h ∧
    ∃ due, t_at t = AwaitTimer due ∧ (due ≤ T)%Z ∧
           (t_context t = cur → due = T) ∧
           (t_context t ≠ cur → is_canceled w (t_context t) = true ∧ t_context t ∈ olds);
  b_pending : ∃ t, t ∈ queue w ∧ t_context t = cur;
  b_older : ∀ c, c ∈ olds → c < cur;
  b_olds : ∀ c, c ∈ olds →
    EvReturn c CanceledAfterTimer ∈ trace w
    ∨ ∃ t, t ∈ queue w ∧ t_context t = c ∧ is_Some (timer_due t);
  b_invocations : invocations w = base
}.

(** The state after the timer of the last call has expired and its handler
    has been invoked, at [T]. *)
Record Fired (slot : string) (h : SlotHandler) (T : Z) (cur : ContextRef)
    (olds : list ContextRef) (base : list Event) (w : World) : Prop := mkFired {
  f_clock : (clock w ≤ T)%Z;
  f_queue : ∀ t, t ∈ queue w →
    (∃ due, t_at t = AwaitTimer due ∧ (due ≤ T)%Z ∧ is_canceled w (t_context t) = true)
    ∨ (∃ p, t_at t = AwaitHandler p ∧ promise_state w p = Pending);
  f_olds : ∀ c, c ∈ olds →
    EvReturn c CanceledAfterTimer ∈ trace w
    ∨ ∃ t, t ∈ queue w ∧ t_context t = c ∧ is_Some (timer_due t);
  f_invocations : invocations w = base ++ [EvInvoke cur slot h T]
}.

(** ** Vocabulary of the further properties *)


(** Cancel flags that are set stay set. *)
Definition flags_kept (w w' : World) : Prop :=
  ∀ c, is_canceled w c = true → is_canceled w' c = true.

(** The trace only grows. *)
Definition trace_extends (w w' : World) : Prop :=
  ∃ evs, trace w' = trace w ++ evs.

(** No slot was triggered in the future. *)
Definition triggered_in_past (w : World) : Prop :=
  ∀ slot t, lastTriggered_of w slot = Some t → (t ≤ clock w)%Z.

(** [n] calls [start(slot, "ignore", 0, handler)] in a row. *)
Fixpoint ignores0 (n : nat) (slot : string) (h : SlotHandler) (w : World) : World :=
  match n with
  | O => w
  | S n => ignores0 n slot h (Slots.start slot ignore 0 h w)
  end.
(** ** The repository's tests, replayed on the embedding *)


(** 'multiple pushes fire once each' *)
Example test_pushes_fire_once :
  let w := Slots.start "foo" push 20000 jest_fn (init 0) in
  let w := Slots.start "foo" push 20000 jest_fn w in
  let w := Slots.start "foo" push 20000 jest_fn w in
  let w1 := tick 1000 w in
  let w2 := tick 21000 w1 in
  invocations w1 = [] ∧ invocations w2 = [EvInvoke 3 "foo" jest_fn 20000].
Proof. vm_compute. done. Qed.

(** 'push does not yield when period is 0' *)
Example test_push_zero :
  let w := Slots.start "foo" push 0 jest_fn (init 0) in
  let w := Slots.start "foo" push 0 jest_fn w in
  let w := Slots.start "foo" push 0 jest_fn w in
  length (invocations w) = 3.
Proof. vm_compute. done. Qed.

(** 'cooldown fires twice when run three times' *)
Example test_cooldown :
  let w0 := Slots.start "foo" cooldown 1000 jest_fn (init 10000) in
  let w := Slots.start "foo" cooldown 1000 jest_fn w0 in
  let w := Slots.start "foo" cooldown 1000 jest_fn w in
  let w1 := tick 1500 w in
  let w := Slots.start "foo" cooldown 1000 jest_fn w1 in
  let w := Slots.start "foo" cooldown 1000 jest_fn w in
  let w2 := tick 750 w in
  length (invocations w0) = 1 ∧ length (invocations w1) = 2 ∧ length (invocations w2) = 3.
Proof. vm_compute. done. Qed.

(** 'cancels and cd checking', up to the first [tickAsync] *)
Example test_cancel_cd :
  let w0 := init 10000 in
  let w1 := Slots.start "foo" cooldown 1000 jest_fn w0 in
  let w2 := Slots.start "foo" cooldown 1000 jest_fn w1 in
  let w3 := Slots.cancel "foo" w2 in
  let w4 := tick 1500 w3 in
  let w5 := Slots.start "foo" push 1000 jest_fn w4 in
  let w6 := Slots.start "foo" push 0 jest_fn w5 in
  snd (Slots.onCD "foo" 1000 w0) = false ∧ snd (Slots.onCD "foo" 1000 w1) = true ∧
  length (invocations w1) = 1 ∧ snd (Slots.onCD "foo" 1000 w2) = true ∧
  snd (Slots.onCD "foo" 1000 w3) = true ∧ length (invocations w4) = 1 ∧
  snd (Slots.onCD "foo" 1000 w4) = false ∧ snd (Slots.onCD "foo" 1000 w5) = false ∧
  snd (Slots.onCD "foo" 1000 w6) = true.
Proof. vm_compute. done. Qed.

(** 'executions must not overlap': each handler runs for 3000 ms. *)
Example test_no_overlap :
  let h n := mkHandler n ReturnsPromise in
  let w := tick 2000 (Slots.start "foo" push 1000 (h "1") (init 0)) in
  let w := Slots.start "foo" push 1000 (h "2") w in
  let w := Slots.start "foo" push 1000 (h "3") w in
  let w := Slots.start "foo" push 1000 (h "4") w in
  let w := Slots.start "foo" push 1000 (h "5") (tick 1500 w) in
  let w := tick 500 w in
  let w := tick 20000 (tick 0 (default w (exec (Settle 0 true) w))) in
  invocations w = [EvInvoke 1 "foo" (h "1") 1000; EvInvoke 5 "foo" (h "5") 4500].
Proof. vm_compute. done. Qed.

(** ** Basic facts *)

Section Basics.
Implicit Types (w : World) (c : ContextRef) (slot : string).

Lemma getOrCreate_found slot w i :
  MySlots w !! slot = Some i → Slots.getOrCreateSlotInfo slot w = (w, i).
Proof. unfold Slots.getOrCreateSlotInfo. by intros ->. Qed.

Lemma getOrCreate_fresh slot w :
  MySlots w !! slot = None →
  Slots.getOrCreateSlotInfo slot w =
    (mkWorld (<[slot := mkInfo (length (heap w)) None None]> (MySlots w))
             (heap w ++ [mkContext (Some true)])
             (promises w) (queue w) (clock w) (trace w),
     mkInfo (length (heap w)) None None).
Proof.
  unfold Slots.getOrCreateSlotInfo. intros ->. cbn.
  unfold with_slots, set_cancel, alloc, with_heap. cbn. do 2 f_equal.
  apply list_insert_id. by rewrite lookup_app_r, Nat.sub_diag by lia.
Qed.

Lemma getOrCreate_lookup slot w :
  MySlots (fst (Slots.getOrCreateSlotInfo slot w)) !! slot
    = Some (snd (Slots.getOrCreateSlotInfo slot w)).
Proof.
  destruct (MySlots w !! slot) as [i|] eqn:E.
  - by rewrite (getOrCreate_found _ _ _ E).
  - rewrite (getOrCreate_fresh _ _ E). cbn. apply lookup_insert_eq.
Qed.

Lemma getOrCreate_lastTriggered slot w :
  lastTriggered (snd (Slots.getOrCreateSlotInfo slot w)) = lastTriggered_of w slot.
Proof.
  unfold lastTriggered_of, lookup_slot.
  destruct (MySlots w !! slot) as [i|] eqn:E.
  - by rewrite (getOrCreate_found _ _ _ E).
  - by rewrite (getOrCreate_fresh _ _ E).
Qed.

Lemma getOrCreate_clock slot w :
  clock (fst (Slots.getOrCreateSlotInfo slot w)) = clock w.
Proof.
  destruct (MySlots w !! slot) as [i|] eqn:E.
  - by rewrite (getOrCreate_found _ _ _ E).
  - by rewrite (getOrCreate_fresh _ _ E).
Qed.

Lemma onCD_unfold slot period w :
  Slots.onCD slot period w =
    (fst (Slots.getOrCreateSlotInfo slot w),
     negb (default (- period) (lastTriggered_of w slot) + period - clock w <=? 0)%Z).
Proof.
  unfold Slots.onCD, Slots.timeNow.
  rewrite <- getOrCreate_lastTriggered, <- (getOrCreate_clock slot w).
  by destruct (Slots.getOrCreateSlotInfo slot w).
Qed.

Lemma is_canceled_alloc w x c :
  c < length (heap w) → is_canceled (alloc x w) c = is_canceled w c.
Proof. intros. unfold is_canceled. cbn. by rewrite lookup_app_l. Qed.

Lemma is_canceled_set_cancel w c c' :
  is_canceled (set_cancel c w) c' =
    if decide (c = c' ∧ c < length (heap w)) then true else is_canceled w c'.
Proof.
  unfold is_canceled. cbn. case_decide as H.
  - destruct H as [-> H]. by rewrite list_lookup_insert_eq.
  - destruct (decide (c = c')) as [->|].
    + rewrite list_insert_ge; [done | lia].
    + by rewrite list_lookup_insert_ne.
Qed.

Lemma is_canceled_true_lookup w c :
  is_canceled w c = true ↔ heap w !! c = Some (mkContext (Some true)).
Proof.
  unfold is_canceled. split.
  - destruct (heap w !! c) as [[[[]|]]|]; cbn; congruence.
  - by intros ->.
Qed.

Lemma set_cancel_id w c : is_canceled w c = true → set_cancel c w = w.
Proof.
  intros H%is_canceled_true_lookup. destruct w. unfold set_cancel, with_heap. cbn in *.
  f_equal. by apply list_insert_id.
Qed.
End Basics.

(** ** onCD *)

(** C6: [onCD] answers [true] exactly when
    [(lastTriggered ?? -period) + period - now > 0]; it changes nothing of
    an existing slot and otherwise only creates the slot's state; a slot
    that never fired is off cooldown for every non-negative period (the
    clock counts milliseconds from the epoch). *)
Theorem onCD_spec (slot : string) (period : Z) (w : World) :
  (snd (Slots.onCD slot period w) = true
     ↔ (default (- period) (lastTriggered_of w slot) + period - clock w > 0)%Z) ∧
  (∀ i, MySlots w !! slot = Some i → fst (Slots.onCD slot period w) = w) ∧
  (MySlots w !! slot = None →
     fst (Slots.onCD slot period w) =
       mkWorld (<[slot := mkInfo (length (heap w)) None None]> (MySlots w))
               (heap w ++ [mkContext (Some true)])
               (promises w) (queue w) (clock w) (trace w)) ∧
  (lastTriggered_of w slot = None → (0 ≤ clock w)%Z →
     ∀ p, (0 ≤ p)%Z → snd (Slots.onCD slot p w) = false).
Proof.
  repeat split.
  - rewrite onCD_unfold. cbn. rewrite negb_true_iff, Z.leb_gt. lia.
  - rewrite onCD_unfold. cbn. rewrite negb_true_iff, Z.leb_gt. lia.
  - intros i Hi. rewrite onCD_unfold. cbn. by rewrite (getOrCreate_found _ _ _ Hi).
  - intros Hn. rewrite onCD_unfold. cbn. by rewrite (getOrCreate_fresh _ _ Hn).
  - intros Hn Hc p Hp. rewrite onCD_unfold, Hn. cbn.
    rewrite negb_false_iff, Z.leb_le. lia.
Qed.

Lemma onCD_spec_witness :
  snd (Slots.onCD "foo" 1000 (init 10000)) = false.
Proof.
  apply (proj2 (proj2 (proj2 (onCD_spec "foo" 1000 (init 10000))))).
  - reflexivity.
  - cbn. lia.
  - lia.
Defined.

Lemma onCD_snd_ext (w w' : World) (slot : string) (period : Z) :
  lastTriggered_of w' slot = lastTriggered_of w slot → clock w' = clock w →
  snd (Slots.onCD slot period w') = snd (Slots.onCD slot period w).
Proof. intros H1 H2. rewrite !onCD_unfold. cbn. by rewrite H1, H2. Qed.

Lemma getOrCreate_lastTriggered_of (slot s : string) (w : World) :
  lastTriggered_of (fst (Slots.getOrCreateSlotInfo slot w)) s = lastTriggered_of w s.
Proof.
  destruct (MySlots w !! slot) as [i|] eqn:E.
  - by rewrite (getOrCreate_found _ _ _ E).
  - rewrite (getOrCreate_fresh _ _ E). unfold lastTriggered_of, lookup_slot. cbn.
    destruct (decide (slot = s)) as [->|].
    + by rewrite lookup_insert_eq, E.
    + by rewrite lookup_insert_ne.
Qed.

Lemma getOrCreate_executing_of (slot s : string) (w : World) :
  executing_of (fst (Slots.getOrCreateSlotInfo slot w)) s = executing_of w s.
Proof.
  destruct (MySlots w !! slot) as [i|] eqn:E.
  - by rewrite (getOrCreate_found _ _ _ E).
  - rewrite (getOrCreate_fresh _ _ E). unfold executing_of, lookup_slot. cbn.
    destruct (decide (slot = s)) as [->|].
    + by rewrite lookup_insert_eq, E.
    + by rewrite lookup_insert_ne.
Qed.

(** ** cancel *)

Lemma cancel_unfold (slot : string) (w : World) :
  Slots.cancel slot w =
    set_cancel (context (snd (Slots.getOrCreateSlotInfo slot w)))
               (fst (Slots.getOrCreateSlotInfo slot w)).
Proof. unfold Slots.cancel. by destruct (Slots.getOrCreateSlotInfo slot w). Qed.

Lemma cancel_fresh (slot : string) (w : World) :
  MySlots w !! slot = None → Slots.cancel slot w = fst (Slots.getOrCreateSlotInfo slot w).
Proof.
  intros E. rewrite cancel_unfold, (getOrCreate_fresh _ _ E). cbn.
  apply set_cancel_id. unfold is_canceled. cbn.
  by rewrite lookup_app_r, Nat.sub_diag by lia.
Qed.

(** C9: [cancel] sets the [cancel] flag of the slot's current context and
    nothing else (a slot never referred to is first created, idle): it is
    idempotent, does nothing when the context is already canceled, leaves
    [lastTriggered] and [executing] of every slot as they were, and no
    answer of [onCD] changes. *)
Theorem cancel_spec (slot : string) (w : World) :
  (∀ i, MySlots w !! slot = Some i →
     Slots.cancel slot w =
       mkWorld (MySlots w) (<[context i := mkContext (Some true)]> (heap w))
               (promises w) (queue w) (clock w) (trace w)) ∧
  Slots.cancel slot (Slots.cancel slot w) = Slots.cancel slot w ∧
  (∀ i, MySlots w !! slot = Some i → is_canceled w (context i) = true →
     Slots.cancel slot w = w) ∧
  (MySlots w !! slot = None →
     Slots.cancel slot w = fst (Slots.getOrCreateSlotInfo slot w)) ∧
  (∀ s, lastTriggered_of (Slots.cancel slot w) s = lastTriggered_of w s) ∧
  (∀ s, executing_of (Slots.cancel slot w) s = executing_of w s) ∧
  (∀ s period, snd (Slots.onCD s period (Slots.cancel slot w)) = snd (Slots.onCD s period w)).
Proof.
  assert (Hex : ∀ i, MySlots w !! slot = Some i →
     Slots.cancel slot w = set_cancel (context i) w).
  { intros i E. by rewrite cancel_unfold, (getOrCreate_found _ _ _ E). }
  assert (Hlt : ∀ s, lastTriggered_of (Slots.cancel slot w) s = lastTriggered_of w s).
  { intros s. rewrite cancel_unfold. apply (getOrCreate_lastTriggered_of slot s w). }
  repeat split.
  - intros i E. by rewrite (Hex _ E).
  - pose proof (getOrCreate_lookup slot w) as Hl.
    rewrite (cancel_unfold slot w).
    set (w1 := fst (Slots.getOrCreateSlotInfo slot w)) in *.
    set (i := snd (Slots.getOrCreateSlotInfo slot w)) in *.
    rewrite cancel_unfold, (getOrCreate_found slot (set_cancel (context i) w1) i Hl). cbn.
    unfold set_cancel, with_heap. cbn. f_equal. apply list_insert_insert_eq.
  - intros i E Hc. rewrite (Hex _ E). by apply set_cancel_id.
  - apply cancel_fresh.
  - apply Hlt.
  - intros s. rewrite cancel_unfold. apply (getOrCreate_executing_of slot s w).
  - intros s period. apply onCD_snd_ext; [apply Hlt|].
    rewrite cancel_unfold. apply getOrCreate_clock.
Qed.

Lemma cancel_spec_witness :
  let w := Slots.start "foo" cooldown 1000 jest_fn (init 10000) in
  Slots.cancel "foo" w = w.
Proof.
  intros w.
  apply (proj1 (proj2 (proj2 (cancel_spec "foo" w))) (mkInfo 1 (Some 10000%Z) None));
    reflexivity.
Defined.

(** ** start: admission *)

Lemma is_canceled_alloc_None (w : World) (c : ContextRef) :
  is_canceled (alloc (mkContext None) w) c = is_canceled w c.
Proof.
  unfold is_canceled. cbn. destruct (decide (c < length (heap w))).
  - by rewrite lookup_app_l.
  - rewrite (lookup_ge_None_2 (heap w)) by lia.
    destruct (decide (c = length (heap w))) as [->|].
    + by rewrite lookup_app_r, Nat.sub_diag by lia.
    + rewrite lookup_ge_None_2; [done|]. rewrite length_app. cbn. lia.
Qed.

Lemma getOrCreate_idle (slot : string) (w : World) :
  is_canceled (fst (Slots.getOrCreateSlotInfo slot w))
              (context (snd (Slots.getOrCreateSlotInfo slot w))) = idle w slot.
Proof.
  unfold idle. destruct (MySlots w !! slot) as [i|] eqn:E.
  - by rewrite (getOrCreate_found _ _ _ E).
  - rewrite (getOrCreate_fresh _ _ E). unfold is_canceled. cbn.
    by rewrite lookup_app_r, Nat.sub_diag by lia.
Qed.

Lemma resolve_spec (slot : string) (mode : Mode) (period : Z) (w : World) :
  Slots.resolve (snd (Slots.getOrCreateSlotInfo slot w)) mode period
      (alloc (mkContext None) (fst (Slots.getOrCreateSlotInfo slot w)))
  = (match mode with cooldown => ignore | m => m end, effective_period w slot mode period).
Proof.
  destruct mode; try done. unfold Slots.resolve, Slots.timeNow, effective_period, timeToNext.
  cbn. rewrite getOrCreate_lastTriggered, getOrCreate_clock. f_equal.
  destruct (Z.leb_spec (default (- period) (lastTriggered_of w slot) + period - clock w)%Z 0%Z); lia.
Qed.

Lemma start_dropped (slot : string) (mode : Mode) (period : Z) (h : SlotHandler) (w : World) :
  admits w slot mode = false →
  Slots.start slot mode period h w =
    emit (EvReturn (length (heap w)) Dropped) (alloc (mkContext None) w).
Proof.
  intros Ha. unfold Slots.start.
  pose proof (resolve_spec slot mode period w) as Hr.
  pose proof (getOrCreate_idle slot w) as Hi.
  assert (∃ i, MySlots w !! slot = Some i) as [i E].
  { destruct mode; try done; cbn in Ha; unfold idle in Ha;
      destruct (MySlots w !! slot); try done; by eexists. }
  rewrite (getOrCreate_found _ _ _ E) in *. cbn in *. rewrite Hr.
  rewrite is_canceled_alloc_None, Hi.
  destruct mode; try done; cbn in Ha; by rewrite Ha.
Qed.

Lemma start_admitted (slot : string) (mode : Mode) (period : Z) (h : SlotHandler) (w : World) :
  admits w slot mode = true →
  Slots.start slot mode period h w =
    let c := fresh_context slot w in
    let p := effective_period w slot mode period in
    if (p =? 0)%Z
    then Slots.expire (mkTask slot c h (AwaitTimer (clock w))) (installed slot w)
    else suspend (mkTask slot c h (AwaitTimer (clock w + p))) (installed slot w).
Proof.
  intros Ha. unfold Slots.start, installed, fresh_context.
  pose proof (resolve_spec slot mode period w) as Hr.
  pose proof (getOrCreate_idle slot w) as Hi.
  pose proof (getOrCreate_clock slot w) as Hc.
  destruct (Slots.getOrCreateSlotInfo slot w) as [w1 i]. cbn in *. rewrite Hr.
  assert (Hadm : match (match mode with cooldown => ignore | m => m end) with
          | push => Some (set_cancel (context i) (alloc (mkContext None) w1))
          | _ => if is_canceled (alloc (mkContext None) w1) (context i)
                 then Some (alloc (mkContext None) w1) else None
          end = Some (set_cancel (context i) (alloc (mkContext None) w1))).
  { destruct mode; try done; cbn in Ha; rewrite is_canceled_alloc_None, Hi, Ha;
      f_equal; symmetry; apply set_cancel_id; by rewrite is_canceled_alloc_None, Hi. }
  rewrite Hadm. cbn. by rewrite Hc.
Qed.

Lemma invocations_emit (e : Event) (w : World) :
  invocations (emit e w) = invocations w ++ (if is_invoke e then [e] else []).
Proof.
  unfold invocations. cbn. rewrite filter_app. f_equal.
  by destruct e.
Qed.

(** C4: a call of [start] in mode [ignore] or [cooldown] on a slot whose
    current context is not canceled returns at once: no handler is
    invoked, nothing is scheduled, and the registry is as before (the only
    trace of the call is the context object it had allocated, which nothing
    refers to), so [onCD] and the idle test answer as before. *)
Theorem ignore_dropped (slot : string) (mode : Mode) (period : Z) (h : SlotHandler)
    (w : World) :
  mode ≠ push → idle w slot = false →
  let w' := Slots.start slot mode period h w in
  MySlots w' = MySlots w ∧ promises w' = promises w ∧ queue w' = queue w ∧
  clock w' = clock w ∧ invocations w' = invocations w ∧
  trace w' = trace w ++ [EvReturn (length (heap w)) Dropped] ∧
  heap w' = heap w ++ [mkContext None] ∧
  (∀ c, is_canceled w' c = is_canceled w c) ∧
  (∀ s, lastTriggered_of w' s = lastTriggered_of w s) ∧
  (∀ s, executing_of w' s = executing_of w s) ∧
  (∀ s, idle w' s = idle w s) ∧
  (∀ s p, snd (Slots.onCD s p w') = snd (Slots.onCD s p w)).
Proof.
  intros Hm Hi w'. subst w'. rewrite start_dropped by (by destruct mode).
  assert (Hc : ∀ c, is_canceled (emit (EvReturn (length (heap w)) Dropped)
                       (alloc (mkContext None) w)) c = is_canceled w c).
  { intros c. apply (is_canceled_alloc_None w c). }
  repeat split; try done.
  - by rewrite invocations_emit, app_nil_r.
  - intros s. unfold idle. cbn. destruct (MySlots w !! s); [apply Hc | done].
  - intros s p. by apply onCD_snd_ext.
Qed.

Lemma ignore_dropped_witness :
  let w := Slots.start "foo" ignore 1000 jest_fn (init 0) in
  queue (Slots.start "foo" cooldown 500 jest_fn w) = queue w.
Proof.
  intros w.
  apply (ignore_dropped "foo" cooldown 500 jest_fn w); [discriminate | reflexivity].
Defined.

(** ** start: the world after admission *)

Section Installed.
Context (slot : string) (w : World).
Let w1 := fst (Slots.getOrCreateSlotInfo slot w).
Let i := snd (Slots.getOrCreateSlotInfo slot w).

Lemma installed_promises : promises (installed slot w) = promises w.
Proof.
  unfold installed. cbn. destruct (MySlots w !! slot) as [j|] eqn:E.
  - by rewrite (getOrCreate_found _ _ _ E).
  - by rewrite (getOrCreate_fresh _ _ E).
Qed.

Lemma installed_queue : queue (installed slot w) = queue w.
Proof.
  unfold installed. cbn. destruct (MySlots w !! slot) as [j|] eqn:E.
  - by rewrite (getOrCreate_found _ _ _ E).
  - by rewrite (getOrCreate_fresh _ _ E).
Qed.

Lemma installed_trace : trace (installed slot w) = trace w.
Proof.
  unfold installed. cbn. destruct (MySlots w !! slot) as [j|] eqn:E.
  - by rewrite (getOrCreate_found _ _ _ E).
  - by rewrite (getOrCreate_fresh _ _ E).
Qed.

Lemma installed_clock : clock (installed slot w) = clock w.
Proof. unfold installed. cbn. apply getOrCreate_clock. Qed.

Lemma installed_lookup :
  MySlots (installed slot w) !! slot =
    Some (mkInfo (fresh_context slot w) (lastTriggered_of w slot) (executing_of w slot)).
Proof.
  unfold installed, fresh_context. cbn. rewrite lookup_alter_eq, getOrCreate_lookup. cbn.
  rewrite getOrCreate_lastTriggered.
  do 2 f_equal. rewrite <- (getOrCreate_executing_of slot slot w).
  unfold executing_of, lookup_slot. by rewrite getOrCreate_lookup.
Qed.

Lemma installed_lookup_ne s :
  s ≠ slot → MySlots (installed slot w) !! s = MySlots w !! s.
Proof.
  intros Hs. unfold installed. cbn. rewrite lookup_alter_ne by done.
  destruct (MySlots w !! slot) as [j|] eqn:E.
  - by rewrite (getOrCreate_found _ _ _ E).
  - rewrite (getOrCreate_fresh _ _ E). cbn. by rewrite lookup_insert_ne.
Qed.

Lemma installed_lastTriggered_of s :
  lastTriggered_of (installed slot w) s = lastTriggered_of w s.
Proof.
  unfold lastTriggered_of at 1. unfold lookup_slot. destruct (decide (s = slot)) as [->|Hs].
  - by rewrite installed_lookup.
  - by rewrite installed_lookup_ne.
Qed.

Lemma installed_executing_of s :
  executing_of (installed slot w) s = executing_of w s.
Proof.
  unfold executing_of at 1. unfold lookup_slot. destruct (decide (s = slot)) as [->|Hs].
  - by rewrite installed_lookup.
  - by rewrite installed_lookup_ne.
Qed.

Lemma getOrCreate_heap_length :
  length (heap w) ≤ length (heap w1).
Proof.
  subst w1. destruct (MySlots w !! slot) as [j|] eqn:E.
  - by rewrite (getOrCreate_found _ _ _ E).
  - rewrite (getOrCreate_fresh _ _ E). cbn. rewrite length_app. lia.
Qed.

Lemma getOrCreate_allocated :
  contexts_allocated w → contexts_allocated w1.
Proof.
  subst w1. intros Hw. destruct (MySlots w !! slot) as [j|] eqn:E.
  - by rewrite (getOrCreate_found _ _ _ E).
  - rewrite (getOrCreate_fresh _ _ E). intros s k. cbn. rewrite length_app. cbn.
    destruct (decide (slot = s)) as [->|].
    + rewrite lookup_insert_eq. intros [= <-]. cbn. lia.
    + rewrite lookup_insert_ne by done. intros Hk%Hw. lia.
Qed.

Lemma installed_heap_length :
  length (heap (installed slot w)) = S (fresh_context slot w).
Proof.
  unfold installed, fresh_context. cbn. rewrite length_insert, length_app. cbn. lia.
Qed.

Lemma installed_allocated :
  contexts_allocated w → contexts_allocated (installed slot w).
Proof.
  intros Hw%getOrCreate_allocated s k Hk. rewrite installed_heap_length.
  destruct (decide (s = slot)) as [->|Hs].
  - rewrite installed_lookup in Hk. injection Hk as <-. cbn. lia.
  - unfold installed in Hk. cbn in Hk. rewrite lookup_alter_ne in Hk by done.
    apply Hw in Hk. unfold fresh_context. fold w1. lia.
Qed.

Lemma installed_fresh_live :
  contexts_allocated w → is_canceled (installed slot w) (fresh_context slot w) = false.
Proof.
  intros Hw%getOrCreate_allocated.
  pose proof (Hw slot i (getOrCreate_lookup slot w)) as Hi.
  unfold installed, fresh_context, is_canceled. cbn. fold w1 i.
  rewrite list_lookup_insert_ne by lia.
  by rewrite lookup_app_r, Nat.sub_diag by lia.
Qed.

Lemma installed_old_canceled c :
  c < fresh_context slot w →
  is_canceled (installed slot w) c =
    if decide (c = context i) then true else is_canceled w1 c.
Proof.
  intros Hc. unfold installed, fresh_context in *. fold w1 i in Hc |- *.
  change (is_canceled (set_context slot (length (heap w1)) ?x) c) with (is_canceled x c).
  rewrite is_canceled_set_cancel. cbn. rewrite length_app. cbn.
  rewrite is_canceled_alloc_None. repeat case_decide; try done; exfalso; intuition lia.
Qed.
End Installed.

(** ** start: the invocation *)

Section Trigger.
Context (t : Task) (w : World).
Hypothesis Hlive : is_canceled w (t_context t) = false.

Lemma trigger_trace :
  trace (Slots.trigger t w) =
    trace w ++ EvInvoke (t_context t) (t_slot t) (t_handler t) (clock w)
               :: after_invoke_trace (t_context t) (t_handler t).
Proof.
  unfold Slots.trigger, after_invoke_trace. rewrite Hlive.
  destruct (hresult (t_handler t)); cbn; by rewrite <- ?app_assoc.
Qed.

Lemma trigger_queue :
  queue (Slots.trigger t w) =
    queue w ++ after_invoke_queue (t_slot t) (t_context t) (t_handler t) (length (promises w)).
Proof.
  unfold Slots.trigger, after_invoke_queue. rewrite Hlive.
  destruct (hresult (t_handler t)); cbn; by rewrite ?app_nil_r.
Qed.

Lemma trigger_clock : clock (Slots.trigger t w) = clock w.
Proof. unfold Slots.trigger. rewrite Hlive. by destruct (hresult (t_handler t)). Qed.

Lemma trigger_lastTriggered_of s :
  lastTriggered_of (Slots.trigger t w) s =
    if decide (s = t_slot t)
    then (λ _, Z.max (default (clock w) (lastTriggered_of w s)) (clock w)) <$> lookup_slot w s
    else lastTriggered_of w s.
Proof.
  unfold Slots.trigger. rewrite Hlive.
  unfold lastTriggered_of at 1. unfold lookup_slot at 1.
  destruct (hresult (t_handler t)); cbn; rewrite ?lookup_alter; unfold Slots.timeNow;
    repeat case_decide; subst; try done; unfold lastTriggered_of, lookup_slot;
    by destruct (MySlots w !! t_slot t).
Qed.

Lemma trigger_executing_of s :
  executing_of (Slots.trigger t w) s =
    if decide (s = t_slot t ∧ hresult (t_handler t) = ReturnsPromise)
    then (λ _, length (promises w)) <$> lookup_slot w s
    else executing_of w s.
Proof.
  unfold Slots.trigger. rewrite Hlive.
  unfold executing_of at 1. unfold lookup_slot at 1.
  destruct (hresult (t_handler t)); cbn; rewrite ?lookup_alter;
    repeat case_decide; subst; try done; try (exfalso; intuition congruence);
    unfold executing_of, lookup_slot; by destruct (MySlots w !! _).
Qed.

Lemma trigger_allocated : contexts_allocated w → contexts_allocated (Slots.trigger t w).
Proof.
  intros Hw. unfold Slots.trigger. rewrite Hlive. intros s k.
  destruct (hresult (t_handler t)); cbn; rewrite ?lookup_alter, ?length_insert;
    repeat case_decide; subst; try apply Hw;
    destruct (MySlots w !! t_slot t) as [j|] eqn:E; cbn; try done;
    intros [= <-]; cbn; by apply (Hw _ _ E).
Qed.
End Trigger.

Lemma trigger_heap_length (t : Task) (w : World) :
  length (heap (Slots.trigger t w)) = length (heap w).
Proof.
  unfold Slots.trigger. destruct (is_canceled w (t_context t)); [done|].
  destruct (hresult (t_handler t)); cbn; by rewrite ?length_insert.
Qed.

Lemma trigger_is_Some (t : Task) (w : World) (s : string) :
  is_Some (MySlots w !! s) → is_Some (MySlots (Slots.trigger t w) !! s).
Proof.
  unfold Slots.trigger. destruct (is_canceled w (t_context t)); [done|].
  destruct (hresult (t_handler t)); cbn; by rewrite ?lookup_alter_is_Some.
Qed.

Lemma fresh_context_found (slot : string) (w : World) :
  is_Some (MySlots w !! slot) → fresh_context slot w = length (heap w).
Proof. intros [i Hi]. unfold fresh_context. by rewrite (getOrCreate_found _ _ _ Hi). Qed.

Lemma expire_canceled (t : Task) (w : World) :
  is_canceled w (t_context t) = true →
  Slots.expire t w = emit (EvReturn (t_context t) CanceledAfterTimer) w.
Proof. unfold Slots.expire. by intros ->. Qed.

Lemma expire_free (t : Task) (w : World) :
  is_canceled w (t_context t) = false → executing_of w (t_slot t) = None →
  Slots.expire t w = Slots.trigger t w.
Proof. unfold Slots.expire. by intros -> ->. Qed.

Lemma expire_busy (t : Task) (w : World) (p : PromiseRef) :
  is_canceled w (t_context t) = false → executing_of w (t_slot t) = Some p →
  Slots.expire t w = suspend (mkTask (t_slot t) (t_context t) (t_handler t) (AwaitExecuting p)) w.
Proof. unfold Slots.expire. by intros -> ->. Qed.

(** An admitted call with nothing to wait for runs through to the handler
    inside the call. *)
Lemma start_immediate (slot : string) (mode : Mode) (period : Z) (h : SlotHandler)
    (w : World) :
  contexts_allocated w → admits w slot mode = true →
  effective_period w slot mode period = 0%Z → executing_of w slot = None →
  let c := fresh_context slot w in
  let w' := Slots.start slot mode period h w in
  trace w' = trace w ++ EvInvoke c slot h (clock w) :: after_invoke_trace c h ∧
  queue w' = queue w ++ after_invoke_queue slot c h (length (promises w)) ∧
  clock w' = clock w ∧
  lastTriggered_of w' slot
    = Some (Z.max (default (clock w) (lastTriggered_of w slot)) (clock w)) ∧
  executing_of w' slot
    = (if decide (hresult h = ReturnsPromise) then Some (length (promises w)) else None) ∧
  contexts_allocated w' ∧
  fresh_context slot w' = S c.
Proof.
  intros Hw Ha Hp He c w'. subst w'. rewrite start_admitted by done. cbn. rewrite Hp. cbn.
  pose proof (installed_fresh_live slot w Hw) as Hl.
  set (t := mkTask slot (fresh_context slot w) h (AwaitTimer (clock w))).
  change (is_canceled (installed slot w) (t_context t) = false) in Hl.
  rewrite expire_free by (by rewrite ?installed_executing_of).
  rewrite (trigger_trace t _ Hl), (trigger_queue t _ Hl), (trigger_clock t _ Hl),
    (trigger_lastTriggered_of t _ Hl), (trigger_executing_of t _ Hl).
  rewrite installed_trace, installed_queue, installed_clock, installed_promises,
    installed_lastTriggered_of. cbn.
  unfold lookup_slot. rewrite installed_lookup. cbn.
  rewrite decide_True by done.
  repeat split; try done.
  - rewrite installed_executing_of, He.
    destruct (decide (hresult h = ReturnsPromise)) as [E|E].
    + by rewrite decide_True.
    + rewrite decide_False; [done | by intros [_ ?]].
  - apply trigger_allocated; [done|]. by apply installed_allocated.
  - rewrite fresh_context_found.
    + by rewrite trigger_heap_length, installed_heap_length.
    + apply trigger_is_Some. by rewrite installed_lookup.
Qed.

(** A call that has to wait for the execution in flight is suspended at
    line 170 with nothing invoked. *)
Lemma start_waits (slot : string) (mode : Mode) (period : Z) (h : SlotHandler)
    (w : World) (p : PromiseRef) :
  contexts_allocated w → admits w slot mode = true →
  effective_period w slot mode period = 0%Z → executing_of w slot = Some p →
  let w' := Slots.start slot mode period h w in
  trace w' = trace w ∧
  queue w' = queue w ++ [mkTask slot (fresh_context slot w) h (AwaitExecuting p)].
Proof.
  intros Hw Ha Hp He w'. subst w'. rewrite start_admitted by done. cbn. rewrite Hp. cbn.
  rewrite (expire_busy _ _ p)
    by (by rewrite ?installed_executing_of; try apply installed_fresh_live).
  unfold suspend. cbn [trace queue with_queue t_slot t_context t_handler].
  by rewrite installed_trace, installed_queue.
Qed.

(** A call with a period to wait for is suspended at line 158. *)
Lemma start_scheduled (slot : string) (mode : Mode) (period : Z) (h : SlotHandler)
    (w : World) :
  admits w slot mode = true → effective_period w slot mode period ≠ 0%Z →
  Slots.start slot mode period h w =
    suspend (mkTask slot (fresh_context slot w) h
               (AwaitTimer (clock w + effective_period w slot mode period)))
            (installed slot w).
Proof.
  intros Ha Hp. rewrite start_admitted by done. cbn.
  by destruct (Z.eqb_spec (effective_period w slot mode period) 0).
Qed.

(** ** The invariant is kept *)

Lemma StronglySorted_weaken {A} (R R' : relation A) (l : list A) :
  (∀ x y, x ∈ l → y ∈ l → R x y → R' x y) → StronglySorted R l → StronglySorted R' l.
Proof.
  induction l as [|a l IH]; intros HR Hs; [constructor|].
  apply StronglySorted_cons in Hs as [Ha Hs]. apply StronglySorted_cons. split.
  - rewrite Forall_forall in *. intros y Hy. apply HR; [left | by right | by apply Ha].
  - apply IH; [|done]. intros x y Hx Hy. apply HR; by right.
Qed.

Lemma StronglySorted_delete {A} (R : relation A) (l : list A) (i : nat) :
  StronglySorted R l → StronglySorted R (delete i l).
Proof.
  intros Hs. rewrite delete_take_drop. rewrite <- (take_drop i l) in Hs.
  apply StronglySorted_app in Hs as (Hc & H1 & H2). apply StronglySorted_app_2; [|done|].
  - intros x y Hx Hy. apply Hc; [done|]. rewrite <- (take_drop 1 (drop i l)), drop_drop.
    apply elem_of_app. right. by rewrite Nat.add_1_r.
  - rewrite <- (take_drop 1 (drop i l)), drop_drop, Nat.add_1_r in H2.
    by apply StronglySorted_app in H2 as (_ & _ & ?).
Qed.

Lemma StronglySorted_snoc {A} (R : relation A) (l : list A) (a : A) :
  StronglySorted R l → (∀ x, x ∈ l → R x a) → StronglySorted R (l ++ [a]).
Proof.
  intros Hs Ha. apply StronglySorted_app_2; [|done|].
  - intros x y Hx ->%list_elem_of_singleton. by apply Ha.
  - repeat constructor.
Qed.

Section Frame.
Context (w w' : World).
Hypothesis Hslots : MySlots w' = MySlots w.
Hypothesis Hheap : heap w' = heap w.
Hypothesis Hqueue : queue w' = queue w.

Lemma frame_is_canceled c : is_canceled w' c = is_canceled w c.
Proof. unfold is_canceled. by rewrite Hheap. Qed.

Lemma frame_executing_of s : executing_of w' s = executing_of w s.
Proof. unfold executing_of, lookup_slot. by rewrite Hslots. Qed.

Lemma frame_context_of s : context_of w' s = context_of w s.
Proof. unfold context_of, lookup_slot. by rewrite Hslots. Qed.

Lemma Inv_frame : Inv w → Inv w'.
Proof.
  intros [H1 H2 H3 H4 H5 H6 H7 H8 H9].
  split; unfold contexts_allocated; intros;
    rewrite ?Hslots, ?Hheap, ?Hqueue, ?frame_is_canceled, ?frame_executing_of,
      ?frame_context_of in *; eauto.
  eapply StronglySorted_weaken; [|done]. unfold before. intros x y _ _.
  by rewrite frame_is_canceled.
Qed.

Lemma Running_frame t : Running w t → Running w' t.
Proof.
  intros [H1 H2 H3 H4].
  split; rewrite ?Hslots, ?Hheap, ?Hqueue, ?frame_is_canceled, ?frame_context_of; done.
Qed.

Lemma no_execution_frame s : no_execution w s → no_execution w' s.
Proof. unfold no_execution. by rewrite Hqueue. Qed.
End Frame.

Lemma Inv_emit (e : Event) (w : World) : Inv w → Inv (emit e w).
Proof. by apply Inv_frame. Qed.

Lemma Inv_init (t0 : Z) : Inv (init t0).
Proof.
  split; cbn; try (intros; exfalso; eapply elem_of_nil; eassumption); try constructor.
  intros s i. cbn. by rewrite lookup_empty.
Qed.

(** Taking a call out of the queue to run it. *)
Lemma Inv_dequeue (i : nat) (w : World) : Inv w → Inv (with_queue (delete i) w).
Proof.
  intros [H1 H2 H3 H4 H5 H6 H7 H8 H9].
  split; cbn; intros; eauto using list_elem_of_delete_inv.
  - rewrite list_fmap_delete. eapply sublist_NoDup; [done | apply sublist_delete].
  - by apply StronglySorted_delete.
Qed.

Lemma Running_dequeue (i : nat) (t : Task) (w : World) :
  Inv w → queue w !! i = Some t → Running (with_queue (delete i) w) t.
Proof.
  intros [H1 H2 H3 H4 H5 H6 H7 H8 H9] Hi.
  pose proof (list_elem_of_lookup_2 _ _ _ Hi) as Ht.
  split; cbn; eauto.
  rewrite list_fmap_delete, delete_take_drop.
  rewrite <- (take_drop_middle _ _ _ Hi), fmap_app, fmap_cons in H4.
  apply NoDup_app in H4 as (Ha & Hb & Hc). apply NoDup_cons in Hc as [Hc _].
  rewrite <- fmap_take, <- fmap_drop. apply not_elem_of_app. split; [|done].
  intros Hin. apply (Hb _ Hin). left.
Qed.

Lemma is_canceled_set_cancel_false (c x : ContextRef) (w : World) :
  is_canceled (set_cancel c w) x = false → is_canceled w x = false.
Proof. rewrite is_canceled_set_cancel. by case_decide. Qed.

Lemma Inv_set_cancel (c : ContextRef) (w : World) : Inv w → Inv (set_cancel c w).
Proof.
  intros [H1 H2 H3 H4 H5 H6 H7 H8 H9].
  split; unfold contexts_allocated; cbn; rewrite ?length_insert;
    eauto using is_canceled_set_cancel_false.
  eapply StronglySorted_weaken; [|done]. unfold before. intros x y _ _ Hb (Hw & Hl & He).
    apply Hb. eauto using is_canceled_set_cancel_false.
Qed.

Lemma Running_set_cancel (c : ContextRef) (t : Task) (w : World) :
  Running w t → Running (set_cancel c w) t.
Proof.
  intros [H1 H2 H3 H4]. split; cbn; rewrite ?length_insert; try done.
  intros Hl%is_canceled_set_cancel_false. by apply H4.
Qed.

Lemma Inv_alloc (x : SlotContext) (w : World) : Inv w → Inv (alloc x w).
Proof.
  intros [H1 H2 H3 H4 H5 H6 H7 H8 H9].
  split; unfold contexts_allocated; cbn; rewrite ?length_app; cbn; try done.
  - intros s i Hi%H1. lia.
  - intros t Ht%H2. lia.
  - intros t Ht. rewrite is_canceled_alloc by auto. by apply H5.
  - intros t q o Ht Hq. rewrite is_canceled_alloc by auto. by apply H8.
  - eapply StronglySorted_weaken; [|done]. unfold before. intros a b Ha _.
    by rewrite is_canceled_alloc by auto.
Qed.

Lemma Running_alloc (x : SlotContext) (t : Task) (w : World) :
  Running w t → Running (alloc x w) t.
Proof.
  intros [H1 H2 H3 H4]. split; cbn; rewrite ?length_app; cbn; try done; [lia|].
  by rewrite is_canceled_alloc.
Qed.

(** Updates of [MySlots] that leave alone what the suspended calls rely on. *)
Lemma Inv_slots (w w' : World) :
  heap w' = heap w → queue w' = queue w → contexts_allocated w' →
  (∀ t, t ∈ queue w → is_Some (MySlots w' !! t_slot t)) →
  (∀ t, t ∈ queue w → is_canceled w (t_context t) = false →
        context_of w' (t_slot t) = context_of w (t_slot t)) →
  (∀ t p, t ∈ queue w → t_at t = AwaitHandler p →
        executing_of w' (t_slot t) = executing_of w (t_slot t)) →
  Inv w → Inv w'.
Proof.
  intros Hh Hq Ha Hs Hc He [H1 H2 H3 H4 H5 H6 H7 H8 H9].
  assert (Hcan : ∀ c, is_canceled w' c = is_canceled w c).
  { intros c. unfold is_canceled. by rewrite Hh. }
  split; rewrite ?Hh, ?Hq; try done.
  - intros t Ht. rewrite Hcan. intros Hl. rewrite Hc by done. by apply H5.
  - intros t p Ht Hp. rewrite (He t p) by done. by apply H6.
  - intros t q o Ht Hw. rewrite Hcan. by apply H8.
  - eapply StronglySorted_weaken; [|done]. unfold before. intros a b _ _.
    by rewrite Hcan.
Qed.

Lemma Running_slots (w w' : World) (t : Task) :
  heap w' = heap w → queue w' = queue w →
  is_Some (MySlots w' !! t_slot t) →
  (is_canceled w (t_context t) = false → context_of w' (t_slot t) = context_of w (t_slot t)) →
  Running w t → Running w' t.
Proof.
  intros Hh Hq Hs Hc [H1 H2 H3 H4].
  split; rewrite ?Hh, ?Hq; try done.
  unfold is_canceled. rewrite Hh. intros Hl. rewrite Hc by done. by apply H4.
Qed.

Lemma Inv_set_lastTriggered (slot : string) (v : Z) (w : World) :
  Inv w → Inv (set_lastTriggered slot v w).
Proof.
  intros Hw. apply (Inv_slots w); try done.
  - intros s i. cbn. rewrite lookup_alter. case_decide; [subst|apply Hw].
    destruct (MySlots w !! s) as [j|] eqn:E; [|done]. intros [= <-]. cbn.
    by apply (inv_slots_alloc _ Hw s).
  - intros t Ht. cbn. rewrite lookup_alter_is_Some. by apply Hw.
  - intros t Ht Hl. unfold context_of, lookup_slot. cbn. rewrite lookup_alter.
    case_decide; [subst|done]. by destruct (MySlots w !! t_slot t).
  - intros t p Ht Hp. unfold executing_of, lookup_slot. cbn. rewrite lookup_alter.
    case_decide; [subst|done]. by destruct (MySlots w !! t_slot t).
Qed.

Lemma Running_set_lastTriggered (slot : string) (v : Z) (t : Task) (w : World) :
  Running w t → Running (set_lastTriggered slot v w) t.
Proof.
  intros Hr. apply (Running_slots w); try done.
  - cbn. rewrite lookup_alter_is_Some. apply Hr.
  - intros _. unfold context_of, lookup_slot. cbn. rewrite lookup_alter.
    case_decide; [subst|done]. by destruct (MySlots w !! t_slot t).
Qed.

Lemma Inv_getOrCreate (slot : string) (w : World) :
  Inv w → Inv (fst (Slots.getOrCreateSlotInfo slot w)).
Proof.
  intros Hw. destruct (MySlots w !! slot) as [j|] eqn:E.
  { by rewrite (getOrCreate_found _ _ _ E). }
  rewrite (getOrCreate_fresh _ _ E). cbn.
  pose proof (Inv_alloc (mkContext (Some true)) w Hw) as Ha.
  apply (Inv_slots (alloc (mkContext (Some true)) w)); try done.
  - intros s i. cbn. rewrite length_app. cbn. destruct (decide (slot = s)) as [->|].
    + rewrite lookup_insert_eq. intros [= <-]. cbn. lia.
    + rewrite lookup_insert_ne by done. intros Hi%(inv_slots_alloc _ Hw). lia.
  - intros t Ht. cbn. pose proof (inv_slot_exists _ Hw t Ht) as Hs.
    rewrite lookup_insert_ne; [done|]. intros Heq. rewrite <- Heq, E in Hs. by destruct Hs.
  - intros t Ht _. unfold context_of, lookup_slot. cbn.
    pose proof (inv_slot_exists _ Hw t Ht) as Hs.
    rewrite lookup_insert_ne; [done|]. intros Heq. rewrite <- Heq, E in Hs. by destruct Hs.
  - intros t p Ht _. unfold executing_of, lookup_slot. cbn.
    pose proof (inv_slot_exists _ Hw t Ht) as Hs.
    rewrite lookup_insert_ne; [done|]. intros Heq. rewrite <- Heq, E in Hs. by destruct Hs.
Qed.

Lemma getOrCreate_queue (slot : string) (w : World) :
  queue (fst (Slots.getOrCreateSlotInfo slot w)) = queue w.
Proof.
  destruct (MySlots w !! slot) as [j|] eqn:E.
  - by rewrite (getOrCreate_found _ _ _ E).
  - by rewrite (getOrCreate_fresh _ _ E).
Qed.

Lemma Inv_installed (slot : string) (w : World) :
  Inv w → Inv (installed slot w).
Proof.
  intros Hw%(Inv_getOrCreate slot). unfold installed.
  pose proof (getOrCreate_lookup slot w) as Hl.
  set (w1 := fst (Slots.getOrCreateSlotInfo slot w)) in *.
  set (i := snd (Slots.getOrCreateSlotInfo slot w)) in *.
  pose proof (inv_slots_alloc _ Hw slot i Hl) as Hi.
  set (w2 := set_cancel (context i) (alloc (mkContext None) w1)).
  assert (Inv w2) as H2 by (by apply Inv_set_cancel, Inv_alloc).
  assert (Hon : ∀ t, t ∈ queue w1 → is_canceled w2 (t_context t) = false → t_slot t ≠ slot).
  { intros t Ht Hlive Hs. pose proof (inv_tasks_alloc _ Hw t Ht) as Hal.
    subst w2. rewrite is_canceled_set_cancel in Hlive. case_decide as Hd; [done|].
    rewrite is_canceled_alloc in Hlive by done.
    apply (inv_current _ Hw t Ht) in Hlive. unfold context_of, lookup_slot in Hlive.
    rewrite Hs, Hl in Hlive. injection Hlive as Hc. apply Hd. split; [done|].
    cbn. rewrite length_app. cbn. lia. }
  apply (Inv_slots w2); try done.
  - intros s k. cbn. rewrite length_insert, length_app. cbn. rewrite lookup_alter.
    case_decide; [subst|].
    + rewrite Hl. intros [= <-]. cbn. lia.
    + intros Hk%(inv_slots_alloc _ Hw). lia.
  - intros t Ht. cbn. rewrite lookup_alter_is_Some. by apply (inv_slot_exists _ Hw).
  - intros t Ht Hlive. unfold context_of, lookup_slot. cbn.
    rewrite lookup_alter_ne; [done|]. intros E. by apply (Hon t Ht Hlive).
  - intros t p Ht _. unfold executing_of, lookup_slot. cbn. rewrite lookup_alter.
    case_decide; [subst|done]. by destruct (MySlots w1 !! _).
Qed.

Lemma Running_installed (slot : string) (h : SlotHandler) (a : Suspended) (w : World) :
  Inv w → Running (installed slot w) (mkTask slot (fresh_context slot w) h a).
Proof.
  intros Hw. split; cbn [t_slot t_context].
  - rewrite installed_heap_length. lia.
  - by rewrite installed_lookup.
  - rewrite installed_queue. intros (t & Hc & Ht)%list_elem_of_fmap.
    rewrite <- (getOrCreate_queue slot w) in Ht.
    apply (inv_tasks_alloc _ (Inv_getOrCreate slot w Hw)) in Ht.
    unfold fresh_context in Hc. lia.
  - intros _. unfold context_of, lookup_slot. by rewrite installed_lookup.
Qed.

Lemma is_execution_spec (slot : string) (t : Task) :
  is_execution slot t = true ↔ t_slot t = slot ∧ ∃ p, t_at t = AwaitHandler p.
Proof.
  unfold is_execution. destruct (t_at t); rewrite ?bool_decide_eq_true; split;
    try done; try (by intros [_ [? [=]]]); eauto. by intros [? _].
Qed.

Lemma Running_retag (w : World) (t t' : Task) :
  t_slot t' = t_slot t → t_context t' = t_context t → Running w t → Running w t'.
Proof. intros Hs Hc [H1 H2 H3 H4]. split; rewrite ?Hs, ?Hc; done. Qed.

(** A live call about to continue is the only live call of its slot. *)
Lemma no_live_others (w : World) (t x : Task) :
  Inv w → Running w t → is_canceled w (t_context t) = false →
  x ∈ queue w → t_slot x = t_slot t → is_canceled w (t_context x) = true.
Proof.
  intros Hw Hr Hl Hx Hs. destruct (is_canceled w (t_context x)) eqn:E; [done|exfalso].
  apply (inv_current _ Hw x Hx) in E. apply (run_current _ _ Hr) in Hl.
  rewrite Hs, Hl in E. injection E as E. apply (run_fresh _ _ Hr). rewrite E.
  by apply list_elem_of_fmap_2.
Qed.

Lemma Inv_suspend (t : Task) (w : World) :
  Inv w → Running w t →
  (∀ p, t_at t = AwaitHandler p →
     executing_of w (t_slot t) = Some p ∧ no_execution w (t_slot t)
     ∧ is_canceled w (t_context t) = false) →
  (∀ q o, t_at t = AwaitExecuting q → o ∈ queue w → is_execution (t_slot t) o = true →
     t_at o = AwaitHandler q) →
  Inv (suspend t w).
Proof.
  intros Hw Hr Hown Hwait.
  assert (Hnew : ∀ x, x ∈ queue w → is_canceled w (t_context x) = false →
            is_execution (t_slot x) t = true → False).
  { intros x Hx Hl (Hs & p & Hp)%is_execution_spec.
    destruct (Hown p Hp) as (_ & _ & Hlt).
    pose proof (no_live_others w t x Hw Hr Hlt Hx (eq_sym Hs)). congruence. }
  assert (Hold : ∀ x, x ∈ queue w → is_execution (t_slot x) x = true →
            is_execution (t_slot x) t = true → False).
  { intros x Hx Hex (Hs & p & Hp)%is_execution_spec.
    destruct (Hown p Hp) as (_ & Hno & _). rewrite <- Hs in Hex.
    rewrite (Hno x Hx) in Hex. done. }
  destruct Hw as [H1 H2 H3 H4 H5 H6 H7 H8 H9]. destruct Hr as [R1 R2 R3 R4].
  change (is_canceled (suspend t w)) with (is_canceled w) in *.
  split; change (is_canceled (suspend t w)) with (is_canceled w);
    change (context_of (suspend t w)) with (context_of w);
    change (executing_of (suspend t w)) with (executing_of w);
    change (before (suspend t w)) with (before w); cbn; try done.
  - intros x [Hx| ->%list_elem_of_singleton]%elem_of_app; auto.
  - intros x [Hx| ->%list_elem_of_singleton]%elem_of_app; auto.
  - rewrite fmap_app. apply NoDup_app. split; [done|]. split; [|apply NoDup_singleton].
    intros c Hc ->%list_elem_of_singleton. done.
  - intros x [Hx| ->%list_elem_of_singleton]%elem_of_app; auto.
  - intros x p [Hx| ->%list_elem_of_singleton]%elem_of_app Hp; eauto.
    by destruct (Hown p Hp).
  - intros x y [Hx| ->%list_elem_of_singleton]%elem_of_app
      [Hy| ->%list_elem_of_singleton]%elem_of_app Hex Hey; eauto.
    + exfalso. eauto.
    + exfalso. apply is_execution_spec in Hey as (Hs & Hp). rewrite <- Hs in Hex.
      apply (Hold y Hy); [by apply is_execution_spec | done].
  - intros x q o [Hx| ->%list_elem_of_singleton]%elem_of_app Hq Hl
      [Ho| ->%list_elem_of_singleton]%elem_of_app Hex; eauto.
    + exfalso. eauto.
    + apply is_execution_spec in Hex as (_ & p & Hp). congruence.
  - apply StronglySorted_snoc; [done|]. intros x Hx (_ & Hl & Hex). eauto.
Qed.

Lemma Inv_set_executing (slot : string) (p : option PromiseRef) (w : World) :
  Inv w → no_execution w slot → Inv (set_executing slot p w).
Proof.
  intros Hw Hno. apply (Inv_slots w); try done.
  - intros s i. cbn. rewrite lookup_alter. case_decide; [subst|apply Hw].
    destruct (MySlots w !! s) as [j|] eqn:E; [|done]. intros [= <-]. cbn.
    by apply (inv_slots_alloc _ Hw s).
  - intros t Ht. cbn. rewrite lookup_alter_is_Some. by apply Hw.
  - intros t Ht Hl. unfold context_of, lookup_slot. cbn. rewrite lookup_alter.
    case_decide; [subst|done]. by destruct (MySlots w !! t_slot t).
  - intros t q Ht Hq. unfold executing_of, lookup_slot. cbn. rewrite lookup_alter_ne; [done|].
    intros Heq. subst slot. pose proof (Hno t Ht) as Hf.
    assert (is_execution (t_slot t) t = true) by (apply is_execution_spec; eauto).
    congruence.
Qed.

Lemma Running_set_executing (slot : string) (p : option PromiseRef) (t : Task) (w : World) :
  Running w t → Running (set_executing slot p w) t.
Proof.
  intros Hr. apply (Running_slots w); try done.
  - cbn. rewrite lookup_alter_is_Some. apply Hr.
  - intros _. unfold context_of, lookup_slot. cbn. rewrite lookup_alter.
    case_decide; [subst|done]. by destruct (MySlots w !! t_slot t).
Qed.

Lemma set_executing_lookup (slot : string) (p : option PromiseRef) (w : World) :
  is_Some (MySlots w !! slot) → executing_of (set_executing slot p w) slot = p.
Proof.
  intros [i Hi]. unfold executing_of, lookup_slot. cbn. by rewrite lookup_alter_eq, Hi.
Qed.

Lemma no_execution_of_executing (w : World) (slot : string) :
  Inv w → executing_of w slot = None → no_execution w slot.
Proof.
  intros Hw He o Ho. destruct (is_execution slot o) eqn:E; [exfalso|done].
  apply is_execution_spec in E as (<- & p & Hp).
  rewrite (inv_owner _ Hw o p Ho Hp) in He. done.
Qed.

Lemma Inv_trigger (t : Task) (w : World) :
  Inv w → Running w t →
  (is_canceled w (t_context t) = false → no_execution w (t_slot t)) →
  Inv (Slots.trigger t w).
Proof.
  intros Hw Hr Hno. unfold Slots.trigger.
  destruct (is_canceled w (t_context t)) eqn:Hl; [by apply Inv_emit|].
  specialize (Hno eq_refl).
  set (w1 := emit _ (set_lastTriggered _ _ w)).
  assert (Inv w1) as H1 by (by apply Inv_emit, Inv_set_lastTriggered).
  assert (Running w1 t) as R1.
  { apply (Running_frame (set_lastTriggered (t_slot t)
       (Z.max (default (Slots.timeNow w) (lastTriggered_of w (t_slot t))) (Slots.timeNow w)) w));
      try done. by apply Running_set_lastTriggered. }
  destruct (hresult (t_handler t)).
  - by apply Inv_emit, Inv_set_cancel.
  - by apply Inv_emit.
  - set (p := length (promises w1)).
    set (w2 := with_promises (λ ps, ps ++ [Pending]) w1).
    assert (Inv w2) as H2 by (by apply (Inv_frame w1)).
    assert (Running w2 t) as R2 by (by apply (Running_frame w1)).
    apply Inv_suspend.
    + by apply Inv_set_executing.
    + apply Running_set_executing. by apply (Running_retag w2 t).
    + cbn [t_at t_slot t_context]. intros ? [= <-]. split; [|done].
      apply (set_executing_lookup (t_slot t) (Some p) w2). apply R2.
    + by cbn [t_at].
Qed.

Lemma Inv_expire (t : Task) (w : World) : Inv w → Running w t → Inv (Slots.expire t w).
Proof.
  intros Hw Hr. unfold Slots.expire.
  destruct (is_canceled w (t_context t)) eqn:Hl; [by apply Inv_emit|].
  destruct (executing_of w (t_slot t)) as [p|] eqn:He.
  - apply Inv_suspend; [done | by apply (Running_retag w t) | by cbn |].
    cbn. intros q o [= <-] Ho (Hs & p' & Hp)%is_execution_spec.
    pose proof (inv_owner _ Hw o p' Ho Hp) as Hex. rewrite Hs, He in Hex. congruence.
  - apply Inv_trigger; [done..|]. intros _. by apply no_execution_of_executing.
Qed.

Lemma Inv_finish (t : Task) (w : World) :
  Inv w → no_execution w (t_slot t) → Inv (Slots.finish t w).
Proof.
  intros Hw Hno. unfold Slots.finish. by apply Inv_emit, Inv_set_cancel, Inv_set_executing.
Qed.

Lemma Inv_start (slot : string) (mode : Mode) (period : Z) (h : SlotHandler) (w : World) :
  Inv w → Inv (Slots.start slot mode period h w).
Proof.
  intros Hw. destruct (admits w slot mode) eqn:Ha.
  - rewrite start_admitted by done. cbn.
    pose proof (Inv_installed slot w Hw) as Hi.
    destruct (effective_period w slot mode period =? 0)%Z.
    + apply Inv_expire; [done|]. by apply Running_installed.
    + apply Inv_suspend; [done | by apply Running_installed | by cbn | by cbn].
  - rewrite start_dropped by done. by apply Inv_emit, Inv_alloc.
Qed.

Lemma Inv_cancel (slot : string) (w : World) : Inv w → Inv (Slots.cancel slot w).
Proof. intros Hw. rewrite cancel_unfold. by apply Inv_set_cancel, Inv_getOrCreate. Qed.

Lemma Inv_onCD (slot : string) (period : Z) (w : World) :
  Inv w → Inv (fst (Slots.onCD slot period w)).
Proof. intros Hw. rewrite onCD_unfold. by apply Inv_getOrCreate. Qed.

(** When a live waiter is first in line for its promise, the execution it
    waited for is over and none has started since. *)
Lemma waiter_first_in_line (w : World) (i : nat) (t : Task) (q : PromiseRef) :
  Inv w → queue w !! i = Some t → t_at t = AwaitExecuting q →
  first_in_line (queue w) i t = true →
  is_canceled w (t_context t) = false →
  no_execution w (t_slot t).
Proof.
  intros Hw Hi Hq Hfirst Hl o Ho.
  destruct (is_execution (t_slot t) o) eqn:Hex; [exfalso|done].
  pose proof (list_elem_of_lookup_2 _ _ _ Hi) as Ht.
  pose proof (inv_waiter _ Hw t q o Ht Hq Hl Ho Hex) as Hp.
  pose proof (inv_order _ Hw) as Hord.
  rewrite <- (take_drop_middle _ _ _ Hi) in Hord, Ho.
  apply StronglySorted_app in Hord as (_ & _ & Hord).
  apply StronglySorted_cons in Hord as [Hord _]. rewrite Forall_forall in Hord.
  apply elem_of_app in Ho as [Ho|Ho].
  - unfold first_in_line, awaited in Hfirst. rewrite Hq in Hfirst.
    rewrite forallb_forall in Hfirst. apply list_elem_of_In, Hfirst in Ho.
    rewrite Hp in Ho. by rewrite bool_decide_true in Ho.
  - apply elem_of_cons in Ho as [->|Ho]; [congruence|].
    apply (Hord o Ho). unfold is_waiter. by rewrite Hq.
Qed.

Lemma Inv_resume_at (i : nat) (t : Task) (w : World) :
  Inv w → queue w !! i = Some t → first_in_line (queue w) i t = true →
  Inv (resume_at i w).
Proof.
  intros Hw Hi Hfirst. unfold resume_at. rewrite Hi.
  pose proof (Inv_dequeue i w Hw) as Hd.
  pose proof (Running_dequeue i t w Hw Hi) as Hr.
  pose proof (list_elem_of_lookup_2 _ _ _ Hi) as Ht.
  unfold Slots.resume. destruct (t_at t) as [due|q|p] eqn:Hat.
  - by apply Inv_expire.
  - destruct (outcome w t); [|by apply Inv_emit].
    apply Inv_trigger; [done..|]. intros Hl o Ho%list_elem_of_delete_inv.
    by apply (waiter_first_in_line w i t q).
  - destruct (outcome w t); [|by apply Inv_emit].
    apply Inv_finish; [done|]. intros o Ho.
    destruct (is_execution (t_slot t) o) eqn:Hex; [exfalso|done].
    assert (is_execution (t_slot t) t = true) as Hext by (apply is_execution_spec; eauto).
    pose proof (inv_owner_unique _ Hw t o Ht (list_elem_of_delete_inv _ _ _ Ho) Hext Hex) as <-.
    apply (run_fresh _ _ Hr). by apply list_elem_of_fmap_2.
Qed.

Lemma Inv_exec (o : Op) (w w' : World) : Inv w → exec o w = Some w' → Inv w'.
Proof.
  intros Hw. destruct o as [slot mode period h|slot|slot period|d|p ok|i]; cbn.
  - intros [= <-]. by apply Inv_start.
  - intros [= <-]. by apply Inv_cancel.
  - intros [= <-]. by apply Inv_onCD.
  - case_match; [|done]. intros [= <-]. by apply (Inv_frame w).
  - case_decide; [|done]. intros [= <-]. by apply (Inv_frame w).
  - destruct (queue w !! i) as [t|] eqn:Hi; [|done].
    destruct (ready w t); [|done]. cbn.
    destruct (first_in_line (queue w) i t) eqn:Hf; [|done].
    intros [= <-]. by apply (Inv_resume_at i t).
Qed.

Lemma Inv_run (ops : list Op) (w w' : World) : Inv w → run ops w = Some w' → Inv w'.
Proof.
  revert w. induction ops as [|o ops IH]; intros w Hw; cbn.
  - by intros [= <-].
  - destruct (exec o w) as [w1|] eqn:E; [|done]. cbn. apply IH. by apply (Inv_exec o w).
Qed.

Lemma reachable_Inv (w : World) : reachable w → Inv w.
Proof. intros (t0 & ops & Hr). apply (Inv_run ops (init t0)); [apply Inv_init | done]. Qed.

(** ** Mutual exclusion *)

Lemma no_execution_executions (w : World) (slot : string) :
  no_execution w slot → executions w slot = [].
Proof.
  unfold no_execution, executions. generalize (queue w). intros q Hno.
  induction q as [|t q IH]; [done|].
  rewrite filter_cons_False.
  - apply IH. intros o Ho. apply Hno. by right.
  - rewrite (Hno t); [done | left].
Qed.

(** Where an invocation in a segment of [start] comes from. *)
Lemma trigger_invoke (t : Task) (w : World) (evs : list Event) c slot h time :
  trace (Slots.trigger t w) = trace w ++ evs → EvInvoke c slot h time ∈ evs →
  slot = t_slot t ∧ is_canceled w (t_context t) = false ∧ time = clock w.
Proof.
  destruct (is_canceled w (t_context t)) eqn:Hl.
  - unfold Slots.trigger. rewrite Hl. cbn. intros <-%app_inv_head.
    by intros [=]%list_elem_of_singleton.
  - rewrite trigger_trace by done. intros <-%app_inv_head.
    intros [[=]|Hin]%elem_of_cons; [by subst|].
    unfold after_invoke_trace in Hin.
    destruct (hresult (t_handler t));
      [by apply list_elem_of_singleton in Hin | by apply list_elem_of_singleton in Hin
      | by apply elem_of_nil in Hin].
Qed.

Lemma expire_invoke (t : Task) (w : World) (evs : list Event) c slot h time :
  trace (Slots.expire t w) = trace w ++ evs → EvInvoke c slot h time ∈ evs →
  slot = t_slot t ∧ is_canceled w (t_context t) = false
  ∧ executing_of w (t_slot t) = None ∧ time = clock w.
Proof.
  unfold Slots.expire. destruct (is_canceled w (t_context t)) eqn:Hl.
  { cbn. intros <-%app_inv_head. by intros [=]%list_elem_of_singleton. }
  destruct (executing_of w (t_slot t)) as [p|] eqn:He.
  { cbn. rewrite <- (app_nil_r (trace w)) at 1. intros <-%app_inv_head.
    by intros ?%elem_of_nil. }
  intros Htr Hin. by destruct (trigger_invoke t w evs c slot h time Htr Hin) as (? & ? & ?).
Qed.

Lemma start_invoke (slot : string) (mode : Mode) (period : Z) (h : SlotHandler) (w : World)
    (evs : list Event) c s h' time :
  trace (Slots.start slot mode period h w) = trace w ++ evs → EvInvoke c s h' time ∈ evs →
  s = slot ∧ executing_of w slot = None ∧ time = clock w ∧ admits w slot mode = true
  ∧ effective_period w slot mode period = 0%Z.
Proof.
  destruct (admits w slot mode) eqn:Ha.
  - rewrite start_admitted by done. cbn.
    destruct (Z.eqb_spec (effective_period w slot mode period) 0).
    + rewrite <- (installed_trace slot w). intros Htr Hin.
      destruct (expire_invoke _ _ _ _ _ _ _ Htr Hin) as (-> & _ & He & ->).
      by rewrite installed_executing_of, installed_clock in *.
    + unfold suspend. cbn [trace with_queue]. rewrite installed_trace.
      rewrite <- (app_nil_r (trace w)) at 1. intros <-%app_inv_head.
      by intros ?%elem_of_nil.
  - rewrite start_dropped by done. cbn. intros <-%app_inv_head.
    by intros [=]%list_elem_of_singleton.
Qed.




(** ** Zero period *)

(** C7, as amended: a call of [start] whose period is 0 (given, or
    recomputed for [cooldown]) invokes its handler inside the call, with no
    timer and no suspension before the invocation, provided the call is
    admitted and the slot has no execution in flight ("if not busy"). *)
Theorem zero_period_synchronous (slot : string) (mode : Mode) (period : Z)
    (h : SlotHandler) (w : World) :
  reachable w → admits w slot mode = true →
  effective_period w slot mode period = 0%Z → executing_of w slot = None →
  let c := fresh_context slot w in
  let w' := Slots.start slot mode period h w in
  trace w' = trace w ++ EvInvoke c slot h (clock w) :: after_invoke_trace c h ∧
  queue w' = queue w ++ after_invoke_queue slot c h (length (promises w)) ∧
  clock w' = clock w.
Proof.
  intros Hw%reachable_Inv Ha Hp He c w'.
  by destruct (start_immediate slot mode period h w (inv_slots_alloc _ Hw) Ha Hp He)
    as (H1 & H2 & H3 & _).
Qed.

Lemma zero_period_synchronous_witness :
  trace (Slots.start "foo" cooldown 1000 jest_fn (init 10000))
    = [EvInvoke 1 "foo" jest_fn 10000; EvReturn 1 Completed].
Proof.
  apply (zero_period_synchronous "foo" cooldown 1000 jest_fn (init 10000)).
  - exists 10000%Z, []. reflexivity.
  - reflexivity.
  - reflexivity.
  - reflexivity.
Defined.

(** C7, as stated, fails: a [push] with period 0 issued while a handler is
    executing is suspended at line 170 and nothing is invoked in the call;
    an [ignore] with period 0 is dropped. *)
Lemma zero_period_counterexample :
  let w := Slots.start "foo" push 0 jest_fn_async (init 0) in
  reachable w ∧ effective_period w "foo" push 0 = 0%Z ∧
  invocations (Slots.start "foo" push 0 jest_fn w) = invocations w ∧
  queue (Slots.start "foo" push 0 jest_fn w)
    = queue w ++ [mkTask "foo" 2 jest_fn (AwaitExecuting 0)] ∧
  trace (Slots.start "foo" ignore 0 jest_fn w) = trace w ++ [EvReturn 2 Dropped].
Proof.
  split; [|by vm_compute]. exists 0%Z, [Start "foo" push 0 jest_fn_async]. reflexivity.
Qed.

(** ** Zero-period pushes are not coalesced *)





(** ** cooldown *)

(** C5: a [cooldown] call is the [ignore] call with the period
    [max(0, (lastTriggered ?? -P) + P - now)]. That period is 0 exactly
    when the slot is off cooldown, and then an admitted call on a slot with
    no execution in flight invokes the handler at once; otherwise the
    period ends exactly at the cooldown boundary, where an admitted call is
    scheduled with nothing invoked meanwhile. *)
Theorem cooldown_as_ignore (slot : string) (period : Z) (h : SlotHandler) (w : World) :
  let p := Z.max 0 (timeToNext w slot period) in
  Slots.start slot cooldown period h w = Slots.start slot ignore p h w ∧
  (snd (Slots.onCD slot period w) = false ↔ p = 0%Z) ∧
  (snd (Slots.onCD slot period w) = true →
     (clock w + p = default (- period) (lastTriggered_of w slot) + period)%Z) ∧
  (snd (Slots.onCD slot period w) = false → reachable w → idle w slot = true →
     executing_of w slot = None →
     trace (Slots.start slot cooldown period h w) =
       trace w ++ EvInvoke (fresh_context slot w) slot h (clock w)
                  :: after_invoke_trace (fresh_context slot w) h) ∧
  (snd (Slots.onCD slot period w) = true → idle w slot = true →
     trace (Slots.start slot cooldown period h w) = trace w ∧
     queue (Slots.start slot cooldown period h w) =
       queue w ++ [mkTask slot (fresh_context slot w) h
                     (AwaitTimer (default (- period) (lastTriggered_of w slot) + period)%Z)]).
Proof.
  intros p.
  assert (Hcd : snd (Slots.onCD slot period w) = negb (timeToNext w slot period <=? 0)%Z).
  { by rewrite onCD_unfold. }
  assert (Heff : effective_period w slot cooldown period = p) by done.
  repeat split.
  - destruct (admits w slot cooldown) eqn:Ha.
    + rewrite !start_admitted by done. by cbn.
    + by rewrite !start_dropped by done.
  - rewrite Hcd, negb_false_iff, Z.leb_le. lia.
  - rewrite Hcd, negb_false_iff, Z.leb_le. lia.
  - rewrite Hcd, negb_true_iff, Z.leb_gt. unfold p, timeToNext. lia.
  - rewrite Hcd, negb_false_iff, Z.leb_le. intros Hle Hw%reachable_Inv Hi He.
    apply (start_immediate slot cooldown period h w); try done; [apply Hw|].
    rewrite Heff. lia.
  - rewrite start_scheduled; [by rewrite <- (installed_trace slot w) | done |].
    rewrite Heff. revert H. rewrite Hcd, negb_true_iff, Z.leb_gt. lia.
  - revert H. rewrite Hcd, negb_true_iff, Z.leb_gt. intros Hgt.
    rewrite start_scheduled; [| done | rewrite Heff; lia].
    unfold suspend. cbn [queue with_queue]. rewrite installed_queue, Heff. do 3 f_equal.
    f_equal. unfold p, timeToNext in *. lia.
Qed.

Lemma cooldown_as_ignore_witness :
  let w := Slots.start "foo" cooldown 1000 jest_fn (init 0) in
  queue (Slots.start "foo" cooldown 1000 jest_fn (with_clock 500 w))
    = [mkTask "foo" 2 jest_fn (AwaitTimer 1000)].
Proof.
  intros w.
  apply (proj2 (proj2 (proj2 (proj2
          (cooldown_as_ignore "foo" 1000 jest_fn (with_clock 500 w)))))); reflexivity.
Defined.

(** ** lastTriggered *)

Lemma le_opt_refl (a : option Z) : le_opt a a.
Proof. destruct a; cbn; [lia | done]. Qed.

Lemma le_opt_trans (a b c : option Z) : le_opt a b → le_opt b c → le_opt a c.
Proof. destruct a, b, c; cbn; try done; lia. Qed.

Lemma trigger_monotone (t : Task) (w : World) (s : string) :
  le_opt (lastTriggered_of w s) (lastTriggered_of (Slots.trigger t w) s).
Proof.
  destruct (is_canceled w (t_context t)) eqn:Hl.
  - unfold Slots.trigger. rewrite Hl. apply le_opt_refl.
  - rewrite trigger_lastTriggered_of by done. case_decide; [subst|apply le_opt_refl].
    unfold lastTriggered_of, lookup_slot. destruct (MySlots w !! t_slot t) as [i|]; [|done].
    cbn. destruct (lastTriggered i); cbn; [lia | done].
Qed.

Lemma expire_monotone (t : Task) (w : World) (s : string) :
  le_opt (lastTriggered_of w s) (lastTriggered_of (Slots.expire t w) s).
Proof.
  unfold Slots.expire. destruct (is_canceled w (t_context t)); [apply le_opt_refl|].
  destruct (executing_of w (t_slot t)); [apply le_opt_refl | apply trigger_monotone].
Qed.

Lemma finish_lastTriggered_of (t : Task) (w : World) (s : string) :
  lastTriggered_of (Slots.finish t w) s = lastTriggered_of w s.
Proof.
  unfold Slots.finish, lastTriggered_of, lookup_slot. cbn. rewrite lookup_alter.
  case_decide; [subst|done]. by destruct (MySlots w !! t_slot t).
Qed.

Lemma start_monotone (slot : string) (mode : Mode) (period : Z) (h : SlotHandler) (w : World)
    (s : string) :
  le_opt (lastTriggered_of w s) (lastTriggered_of (Slots.start slot mode period h w) s).
Proof.
  destruct (admits w slot mode) eqn:Ha.
  - rewrite start_admitted by done. cbn. rewrite <- (installed_lastTriggered_of slot w s).
    destruct (effective_period w slot mode period =? 0)%Z;
      [apply expire_monotone | apply le_opt_refl].
  - rewrite start_dropped by done. apply le_opt_refl.
Qed.

Lemma exec_monotone (o : Op) (w w' : World) (s : string) :
  exec o w = Some w' → le_opt (lastTriggered_of w s) (lastTriggered_of w' s).
Proof.
  destruct o as [sl mode period hd|sl|sl period|d|p ok|i]; cbn.
  - intros [= <-]. apply start_monotone.
  - intros [= <-]. rewrite cancel_unfold.
    change (lastTriggered_of (set_cancel ?c ?x) s) with (lastTriggered_of x s).
    rewrite getOrCreate_lastTriggered_of. apply le_opt_refl.
  - intros [= <-]. rewrite onCD_unfold. cbn.
    rewrite getOrCreate_lastTriggered_of. apply le_opt_refl.
  - case_match; [|done]. intros [= <-]. apply le_opt_refl.
  - case_decide; [|done]. intros [= <-]. apply le_opt_refl.
  - destruct (queue w !! i) as [t|] eqn:Hi; [|done].
    destruct (ready w t && first_in_line (queue w) i t); [|done].
    intros [= <-]. unfold resume_at. rewrite Hi. unfold Slots.resume.
    change (lastTriggered_of w s) with (lastTriggered_of (with_queue (delete i) w) s).
    destruct (t_at t), (outcome w t);
      try apply expire_monotone; try apply trigger_monotone; try apply le_opt_refl.
    all: rewrite finish_lastTriggered_of; apply le_opt_refl.
Qed.

Lemma run_monotone (ops : list Op) (w w' : World) (s : string) :
  run ops w = Some w' → le_opt (lastTriggered_of w s) (lastTriggered_of w' s).
Proof.
  revert w. induction ops as [|o ops IH]; intros w; cbn.
  - intros [= <-]. apply le_opt_refl.
  - destruct (exec o w) as [w1|] eqn:E; [|done]. cbn. intros Hr.
    eapply le_opt_trans; [by apply (exec_monotone o w w1) | by apply IH].
Qed.

Lemma trigger_stamp (t : Task) (w : World) :
  is_canceled w (t_context t) = false → is_Some (MySlots w !! t_slot t) →
  lastTriggered_of (Slots.trigger t w) (t_slot t)
    = Some (Z.max (default (clock w) (lastTriggered_of w (t_slot t))) (clock w)).
Proof.
  intros Hl [i Hi]. rewrite trigger_lastTriggered_of, decide_True by done.
  unfold lookup_slot. by rewrite Hi.
Qed.

(** The step that invokes a handler has stamped [lastTriggered] already. *)
Lemma exec_stamp (o : Op) (w w' : World) (evs : list Event) c slot h time :
  Inv w → exec o w = Some w' → trace w' = trace w ++ evs →
  EvInvoke c slot h time ∈ evs →
  time = clock w ∧
  lastTriggered_of w' slot = Some (Z.max (default time (lastTriggered_of w slot)) time).
Proof.
  intros Hw. destruct o as [sl mode period hd|sl|sl period|d|p ok|i]; cbn.
  - intros [= <-] Htr Hin.
    destruct (start_invoke _ _ _ _ _ _ _ _ _ _ Htr Hin) as (-> & He & -> & Ha & Hp).
    split; [done|].
    by destruct (start_immediate sl mode period hd w (inv_slots_alloc _ Hw) Ha Hp He)
      as (_ & _ & _ & Hlt & _).
  - intros [= <-]. rewrite cancel_unfold. cbn.
    assert (trace (fst (Slots.getOrCreateSlotInfo sl w)) = trace w) as ->.
    { destruct (MySlots w !! sl) as [j|] eqn:E.
      - by rewrite (getOrCreate_found _ _ _ E).
      - by rewrite (getOrCreate_fresh _ _ E). }
    rewrite <- (app_nil_r (trace w)) at 1. intros <-%app_inv_head. by intros ?%elem_of_nil.
  - intros [= <-]. rewrite onCD_unfold. cbn.
    assert (trace (fst (Slots.getOrCreateSlotInfo sl w)) = trace w) as ->.
    { destruct (MySlots w !! sl) as [j|] eqn:E.
      - by rewrite (getOrCreate_found _ _ _ E).
      - by rewrite (getOrCreate_fresh _ _ E). }
    rewrite <- (app_nil_r (trace w)) at 1. intros <-%app_inv_head. by intros ?%elem_of_nil.
  - case_match; [|done]. intros [= <-]. cbn.
    rewrite <- (app_nil_r (trace w)) at 1. intros <-%app_inv_head. by intros ?%elem_of_nil.
  - case_decide; [|done]. intros [= <-]. cbn.
    rewrite <- (app_nil_r (trace w)) at 1. intros <-%app_inv_head. by intros ?%elem_of_nil.
  - destruct (queue w !! i) as [t|] eqn:Hi; [|done].
    destruct (ready w t && first_in_line (queue w) i t); [|done].
    pose proof (inv_slot_exists _ Hw t (list_elem_of_lookup_2 _ _ _ Hi)) as Hs.
    intros [= <-]. unfold resume_at. rewrite Hi. unfold Slots.resume.
    change (trace w) with (trace (with_queue (delete i) w)).
    change (lastTriggered_of w slot) with (lastTriggered_of (with_queue (delete i) w) slot).
    change (clock w) with (clock (with_queue (delete i) w)).
    destruct (t_at t) as [due|q|p] eqn:Hat.
    + intros Htr Hin.
      destruct (expire_invoke _ _ _ _ _ _ _ Htr Hin) as (-> & Hl & He & ->).
      split; [done|]. rewrite expire_free by done. by apply trigger_stamp.
    + destruct (outcome w t).
      * intros Htr Hin. destruct (trigger_invoke _ _ _ _ _ _ _ Htr Hin) as (-> & Hl & ->).
        split; [done|]. by apply trigger_stamp.
      * cbn. intros <-%app_inv_head. by intros [=]%list_elem_of_singleton.
    + destruct (outcome w t); cbn; intros <-%app_inv_head;
        by intros [=]%list_elem_of_singleton.
Qed.

(** C8: [lastTriggered] of a slot never decreases along a run of the event
    loop; the step that invokes a handler sets it to the maximum of its
    previous value and the current time, whatever the handler then does
    (return, throw, or stay in flight), so that the slot is on cooldown at
    once; the completion of the handler does not touch it. *)
Theorem lastTriggered_monotone :
  (∀ ops w w' slot, run ops w = Some w' →
     le_opt (lastTriggered_of w slot) (lastTriggered_of w' slot)) ∧
  (∀ o w w' evs c slot h time,
     reachable w → exec o w = Some w' → trace w' = trace w ++ evs →
     EvInvoke c slot h time ∈ evs →
     time = clock w ∧
     lastTriggered_of w' slot = Some (Z.max (default time (lastTriggered_of w slot)) time) ∧
     ∀ period, (0 < period)%Z → snd (Slots.onCD slot period w') = true) ∧
  (∀ t w slot, lastTriggered_of (Slots.finish t w) slot = lastTriggered_of w slot).
Proof.
  split; [|split].
  - intros ops w w' slot. apply run_monotone.
  - intros o w w' evs c slot h time Hw%reachable_Inv He Htr Hin.
    destruct (exec_stamp o w w' evs c slot h time Hw He Htr Hin) as [-> Hlt].
    repeat split; [done|]. intros period Hp. rewrite onCD_unfold, Hlt. cbn.
    rewrite negb_true_iff, Z.leb_gt.
    assert (clock w' = clock w) as ->; [|lia].
    destruct o as [sl mode period' hd|sl|sl period'|d|p ok|i]; cbn in He.
    + injection He as <-.
      destruct (start_invoke _ _ _ _ _ _ _ _ _ _ Htr Hin) as (-> & He & _ & Ha & Hp').
      by destruct (start_immediate sl mode period' hd w (inv_slots_alloc _ Hw) Ha Hp' He)
        as (_ & _ & Hc & _).
    + injection He as <-. rewrite cancel_unfold. apply getOrCreate_clock.
    + injection He as <-. rewrite onCD_unfold. apply getOrCreate_clock.
    + exfalso. destruct (0 <=? d)%Z; [|done]. injection He as <-. cbn in Htr.
      rewrite <- (app_nil_r (trace w)) in Htr at 1. apply app_inv_head in Htr. subst.
      by apply elem_of_nil in Hin.
    + case_decide; [|done]. by injection He as <-.
    + destruct (queue w !! i) as [t|] eqn:Hi; [|done].
      destruct (ready w t && first_in_line (queue w) i t); [|done].
      injection He as <-. unfold resume_at. rewrite Hi. unfold Slots.resume, Slots.expire,
        Slots.trigger, Slots.finish.
      by repeat case_match.
  - intros t w slot. apply finish_lastTriggered_of.
Qed.

Lemma lastTriggered_monotone_witness :
  le_opt (lastTriggered_of (init 0) "foo")
         (lastTriggered_of (Slots.start "foo" push 0 jest_fn (init 0)) "foo").
Proof.
  apply (proj1 lastTriggered_monotone [Start "foo" push 0 jest_fn]). reflexivity.
Defined.

(** ** Failing handlers *)

Lemma resume_at_rejected (i : nat) (t : Task) (w : World) (p : PromiseRef) :
  queue w !! i = Some t → awaited t = Some p → promise_state w p = Rejected →
  resume_at i w = emit (EvThrow (t_context t)) (with_queue (delete i) w).
Proof.
  intros Hi Ha Hp. unfold resume_at, outcome, Slots.resume. rewrite Hi, Ha, Hp.
  rewrite bool_decide_false by done. unfold awaited in Ha. by destruct (t_at t).
Qed.

(** C2, as amended: a handler's error reaches the awaiter of [start] (the
    call's promise is rejected) after [lastTriggered] has been set, and the
    registry does nothing more for that call: [start] has no cleanup for
    the failure. When the handler throws, lines 183-192 are skipped; when
    its promise is rejected, the [await] at line 185 throws and lines
    188-192 are skipped, as it does for every call suspended at line 170 on
    that promise. [slotInfo.executing] and the [cancel] flag of the context
    stay as they were, and a slot whose current context is not canceled
    still drops [ignore] calls. *)
Theorem handler_failure_propagates :
  (∀ t w, is_canceled w (t_context t) = false → hresult (t_handler t) = Raises →
     trace (Slots.trigger t w) =
       trace w ++ [EvInvoke (t_context t) (t_slot t) (t_handler t) (clock w);
                   EvThrow (t_context t)] ∧
     heap (Slots.trigger t w) = heap w ∧ queue (Slots.trigger t w) = queue w ∧
     ∀ s, executing_of (Slots.trigger t w) s = executing_of w s) ∧
  (∀ i t w p, queue w !! i = Some t → awaited t = Some p → promise_state w p = Rejected →
     resume_at i w = emit (EvThrow (t_context t)) (with_queue (delete i) w)) ∧
  (∀ slot mode period h w, mode ≠ push → idle w slot = false →
     trace (Slots.start slot mode period h w) = trace w ++ [EvReturn (length (heap w)) Dropped]).
Proof.
  split; [|split].
  - intros t w Hl Hh. rewrite trigger_trace, trigger_queue by done.
    unfold after_invoke_trace, after_invoke_queue. rewrite Hh, app_nil_r.
    repeat split; [| intros s; rewrite trigger_executing_of by done;
                     rewrite decide_False; [done | rewrite Hh; by intros [_ ?]]].
    unfold Slots.trigger. by rewrite Hl, Hh.
  - apply resume_at_rejected.
  - intros slot mode period h w Hm Hi. rewrite start_dropped; [done | by destruct mode].
Qed.

Lemma handler_failure_propagates_witness :
  let w := Slots.start "foo" ignore 0 jest_fn_throws (init 0) in
  trace (Slots.start "foo" ignore 0 jest_fn w) = trace w ++ [EvReturn 2 Dropped].
Proof.
  intros w. apply (proj2 (proj2 handler_failure_propagates)); [discriminate | reflexivity].
Defined.

(** C2, as stated, fails. After a handler has thrown, the context of its
    call is still not canceled and the next [ignore] call is dropped. After
    a handler's promise was rejected, [executing] still holds that promise
    and the context is not canceled: an [ignore] call is dropped, and a
    [push] call, which is admitted, throws at line 170 without invoking its
    handler. *)
Lemma handler_failure_counterexample :
  (∃ w, run [Start "foo" ignore 0 jest_fn_throws; Start "foo" ignore 0 jest_fn] (init 0)
          = Some w ∧
        trace w = [EvInvoke 1 "foo" jest_fn_throws 0; EvThrow 1; EvReturn 2 Dropped] ∧
        idle w "foo" = false) ∧
  (∃ w, run [Start "foo" ignore 0 jest_fn_rejects; Settle 0 false; Resume 0;
             Start "foo" ignore 0 jest_fn; Start "foo" push 0 jest_fn; Resume 0] (init 0)
          = Some w ∧
        trace w = [EvInvoke 1 "foo" jest_fn_rejects 0; EvThrow 1; EvReturn 2 Dropped;
                   EvThrow 3] ∧
        executing_of w "foo" = Some 0 ∧ queue w = []).
Proof. split; eexists; (split; [vm_compute; reflexivity | by vm_compute]). Qed.

(** ** The punctual scheduler *)

Lemma find_index_Some (P : Task → bool) (q : list Task) (i : nat) :
  find_index P q = Some i →
  ∃ t, q !! i = Some t ∧ P t = true ∧ ∀ j t', j < i → q !! j = Some t' → P t' = false.
Proof.
  revert i. induction q as [|a q IH]; intros i; cbn; [done|].
  destruct (P a) eqn:Ha.
  - intros [= <-]. exists a. repeat split; [done|]. intros j t' Hj. lia.
  - destruct (find_index P q) as [k|]; [|done]. cbn. intros [= <-].
    destruct (IH k eq_refl) as (t & Ht & HP & Hlt). exists t. repeat split; try done.
    intros [|j] t' Hj; cbn; [by intros [= <-] | apply Hlt; lia].
Qed.

Lemma find_index_None (P : Task → bool) (q : list Task) :
  find_index P q = None → ∀ t, t ∈ q → P t = false.
Proof.
  induction q as [|a q IH]; cbn; [by intros _ t ?%elem_of_nil|].
  destruct (P a) eqn:Ha; [done|]. destruct (find_index P q); [done|].
  intros _ t [->|Ht]%elem_of_cons; auto.
Qed.

Lemma least_Some (l : list Z) (m : Z) :
  least l = Some m → m ∈ l ∧ ∀ x, x ∈ l → (m ≤ x)%Z.
Proof.
  revert m. induction l as [|a l IH]; intros m; cbn; [done|].
  destruct (least l) as [y|] eqn:E.
  - intros [= <-]. destruct (IH y eq_refl) as [Hy Hmin]. split.
    + destruct (Z.min_spec a y) as [[_ ->]|[_ ->]]; [left | by right].
    + intros x [->|Hx]%elem_of_cons; [lia|]. specialize (Hmin x Hx). lia.
  - intros [= <-]. split; [left|]. destruct l; [|done].
    intros x [->|Hx]%elem_of_cons; [lia | by apply elem_of_nil in Hx].
Qed.

Lemma least_None (l : list Z) : least l = None → l = [].
Proof. by destruct l. Qed.

Lemma timer_due_spec (t : Task) (d : Z) : timer_due t = Some d ↔ t_at t = AwaitTimer d.
Proof. unfold timer_due. destruct (t_at t); naive_solver. Qed.

Lemma next_timer_Some (w : World) (i : nat) (due : Z) :
  next_timer w = Some (i, due) →
  ∃ t, queue w !! i = Some t ∧ t_at t = AwaitTimer due
       ∧ ∀ t' d, t' ∈ queue w → t_at t' = AwaitTimer d → (due ≤ d)%Z.
Proof.
  unfold next_timer. destruct (least _) as [m|] eqn:E; [|done]. cbn.
  destruct (find_index _ _) as [k|] eqn:F; [|done]. cbn. intros [= <- <-].
  destruct (find_index_Some _ _ _ F) as (t & Ht & HP & _).
  apply bool_decide_eq_true, timer_due_spec in HP.
  destruct (least_Some _ _ E) as [_ Hmin].
  exists t. repeat split; try done. intros t' d Ht' Hd%timer_due_spec.
  apply Hmin. apply list_elem_of_omap. eauto.
Qed.

Lemma next_timer_None (w : World) :
  next_timer w = None → ∀ t, t ∈ queue w → timer_due t = None.
Proof.
  unfold next_timer. destruct (least _) as [m|] eqn:E; cbn.
  - destruct (find_index _ _) as [k|] eqn:F; [done|]. intros _.
    destruct (least_Some _ _ E) as [(t & Ht & Hd)%list_elem_of_omap _].
    pose proof (find_index_None _ _ F t Ht) as Hf. cbn beta in Hf.
    by rewrite Hd, bool_decide_true in Hf.
  - intros _ t Ht. apply least_None in E.
    destruct (timer_due t) as [d|] eqn:Hd; [|done].
    assert (d ∈ omap timer_due (queue w)) as Hin by (apply list_elem_of_omap; eauto).
    rewrite E in Hin. by apply elem_of_nil in Hin.
Qed.

Lemma drain_quiet (fuel : nat) (w : World) : quiet w → drain fuel w = w.
Proof.
  intros Hq. destruct fuel; [done|]. cbn.
  destruct (next_reaction w) as [i|] eqn:E; [exfalso|done].
  destruct (find_index_Some _ _ _ E) as (t & Ht & HP & _).
  apply andb_true_iff in HP as [[p Hp]%bool_decide_eq_true Hr].
  pose proof (Hq t p (list_elem_of_lookup_2 _ _ _ Ht) Hp) as Hpend.
  unfold ready in Hr. unfold awaited in Hp.
  destruct (t_at t); [done| |]; injection Hp as ->;
    by rewrite Hpend, bool_decide_false in Hr by auto.
Qed.

Lemma count_timers_delete (q : list Task) (i : nat) (t : Task) :
  q !! i = Some t → is_Some (timer_due t) →
  S (length (omap timer_due (delete i q))) = length (omap timer_due q).
Proof.
  revert i. induction q as [|a q IH]; intros i; [done|].
  destruct i as [|i]; cbn.
  - intros [= ->] [d ->]. done.
  - intros Hi Ht. destruct (timer_due a); cbn; rewrite <- (IH i Hi Ht); done.
Qed.

Lemma resume_at_timer_canceled (i : nat) (t : Task) (w : World) :
  queue w !! i = Some t → is_Some (timer_due t) → is_canceled w (t_context t) = true →
  resume_at i w = emit (EvReturn (t_context t) CanceledAfterTimer) (with_queue (delete i) w).
Proof.
  intros Hi [d Hd%timer_due_spec] Hc. unfold resume_at, Slots.resume. rewrite Hi, Hd.
  by rewrite expire_canceled.
Qed.

Lemma resume_at_timer_live (i : nat) (t : Task) (w : World) :
  queue w !! i = Some t → is_Some (timer_due t) → is_canceled w (t_context t) = false →
  executing_of w (t_slot t) = None →
  resume_at i w = Slots.trigger t (with_queue (delete i) w).
Proof.
  intros Hi [d Hd%timer_due_spec] Hc He. unfold resume_at, Slots.resume. rewrite Hi, Hd.
  by rewrite expire_free.
Qed.

(** ** Push coalescing *)

Lemma elem_of_delete_ne {A} (l : list A) (i : nat) (x y : A) :
  l !! i = Some y → x ∈ l → x ≠ y → x ∈ delete i l.
Proof.
  intros Hi Hx Hne. rewrite delete_take_drop. rewrite <- (take_drop_middle _ _ _ Hi) in Hx.
  apply elem_of_app in Hx as [Hx|[->|Hx]%elem_of_cons]; [|done|]; apply elem_of_app; auto.
Qed.

Lemma start_push_scheduled (slot : string) (period : Z) (h : SlotHandler) (w : World) :
  period ≠ 0%Z →
  Slots.start slot push period h w =
    suspend (mkTask slot (fresh_context slot w) h (AwaitTimer (clock w + period)))
            (installed slot w).
Proof. intros Hp. by rewrite start_scheduled. Qed.

Section Burst.
Context (slot : string) (h : SlotHandler) (period : Z).
Hypothesis Hperiod : (0 < period)%Z.

Lemma Burst_first (w : World) :
  Inv w → queue w = [] → executing_of w slot = None →
  Burst slot h period (clock w + period) (fresh_context slot w) [] (invocations w)
    (Slots.start slot push period h w).
Proof.
  intros Hw Hq He. pose proof (Inv_start slot push period h w Hw) as Hi.
  rewrite start_push_scheduled in * by lia.
  split; try done.
  - change (executing_of (suspend ?t ?x) slot) with (executing_of x slot).
    by rewrite installed_executing_of.
  - unfold context_of, lookup_slot. cbn [MySlots suspend with_queue].
    by rewrite installed_lookup.
  - change (is_canceled (suspend ?t ?x) ?c) with (is_canceled x c).
    apply installed_fresh_live, Hw.
  - cbn [heap suspend with_queue]. apply installed_heap_length.
  - cbn [clock suspend with_queue]. rewrite installed_clock. lia.
  - cbn [queue suspend with_queue]. rewrite installed_queue, Hq.
    intros t ->%list_elem_of_singleton. cbn. repeat split; try done.
    exists (clock w + period)%Z. repeat split; try done; lia.
  - exists (mkTask slot (fresh_context slot w) h (AwaitTimer (clock w + period))).
    split; [|done]. cbn [queue suspend with_queue]. apply elem_of_app. right. left.
  - by intros c ?%elem_of_nil.
  - by intros c ?%elem_of_nil.
  - unfold invocations. cbn [trace suspend with_queue]. by rewrite installed_trace.
Qed.

Lemma Burst_next (T : Z) (cur : ContextRef) (olds : list ContextRef) (base : list Event)
    (w : World) :
  Burst slot h period T cur olds base w →
  Burst slot h period (clock w + period) (S cur) (cur :: olds) base
    (Slots.start slot push period h w).
Proof.
  intros [Hw He Hc Hl Hh Hk Hq Hp Hlt Ho Hb].
  pose proof (Inv_start slot push period h w Hw) as Hi.
  rewrite start_push_scheduled in * by lia.
  assert (∃ i, MySlots w !! slot = Some i ∧ context i = cur) as (i & Hs & Hci).
  { unfold context_of, lookup_slot in Hc. destruct (MySlots w !! slot) as [i|]; [|done].
    exists i. split; [done|]. by injection Hc. }
  assert (Hfr : fresh_context slot w = S cur).
  { rewrite fresh_context_found by eauto. done. }
  assert (Hold : ∀ c, c < S cur →
            is_canceled (installed slot w) c = if decide (c = cur) then true else is_canceled w c).
  { intros c Hc'. rewrite installed_old_canceled by lia.
    rewrite (getOrCreate_found _ _ _ Hs). cbn. by rewrite Hci. }
  rewrite Hfr in *.
  split; try done.
  - change (executing_of (suspend ?t ?x) slot) with (executing_of x slot).
    by rewrite installed_executing_of.
  - unfold context_of, lookup_slot. cbn [MySlots suspend with_queue].
    by rewrite installed_lookup, Hfr.
  - change (is_canceled (suspend ?t ?x) ?c) with (is_canceled x c).
    rewrite <- Hfr. apply installed_fresh_live, Hw.
  - cbn [heap suspend with_queue]. by rewrite installed_heap_length, Hfr.
  - cbn [clock suspend with_queue]. rewrite installed_clock. lia.
  - cbn [queue suspend with_queue]. rewrite installed_queue.
    change (is_canceled (suspend ?t ?x)) with (is_canceled x).
    intros t [Ht| ->%list_elem_of_singleton]%elem_of_app.
    + destruct (Hq t Ht) as (H1 & H2 & due & H3 & H4 & H5 & H6).
      pose proof (inv_tasks_alloc _ Hw t Ht) as Hal. rewrite Hh in Hal.
      repeat split; try done. exists due. repeat split; [done | lia | lia | |].
      * rewrite Hold by done. case_decide; [done|]. by apply H6.
      * destruct (decide (t_context t = cur)) as [->|Hne]; [left|right]. by apply H6.
    + cbn. repeat split; try done. exists (clock w + period)%Z.
      repeat split; try done; lia.
  - exists (mkTask slot (S cur) h (AwaitTimer (clock w + period))).
    split; [|done]. cbn [queue suspend with_queue]. apply elem_of_app. right. left.
  - intros c [->|Hin%Hlt]%elem_of_cons; lia.
  - cbn [queue trace suspend with_queue]. rewrite installed_queue, installed_trace.
    intros c [->|Hin]%elem_of_cons.
    + right. destruct Hp as (t & Ht & Htc). exists t. repeat split; [|done|].
      * apply elem_of_app. by left.
      * destruct (Hq t Ht) as (_ & _ & due & Hd & _). unfold timer_due. by rewrite Hd.
    + destruct (Ho c Hin) as [?|(t & Ht & Htc & Hd)]; [by left|right].
      exists t. repeat split; [|done..]. apply elem_of_app. by left.
  - unfold invocations. cbn [trace suspend with_queue]. by rewrite installed_trace.
Qed.
End Burst.

(** Read the observers of a world that differs from [w] in other fields
    as observers of [w]. *)
Ltac observe_in w :=
  repeat match goal with
  | |- context [is_canceled ?x ?c] =>
      lazymatch x with w => fail | _ => change (is_canceled x c) with (is_canceled w c) end
  | |- context [executing_of ?x ?s] =>
      lazymatch x with w => fail | _ => change (executing_of x s) with (executing_of w s) end
  | |- context [context_of ?x ?s] =>
      lazymatch x with w => fail | _ => change (context_of x s) with (context_of w s) end
  end.

Section BurstSteps.
Context (slot : string) (h : SlotHandler) (period T : Z) (cur : ContextRef)
  (olds : list ContextRef) (base : list Event).

Lemma Burst_quiet (w : World) : Burst slot h period T cur olds base w → quiet w.
Proof.
  intros Hb t p Ht Hp. destruct (b_queue _ _ _ _ _ _ _ _ Hb t Ht) as (_ & _ & due & Hd & _).
  unfold awaited in Hp. by rewrite Hd in Hp.
Qed.

Lemma Fired_quiet (w : World) : Fired slot h T cur olds base w → quiet w.
Proof.
  intros Hf t p Ht Hp. unfold awaited in Hp.
  destruct (f_queue _ _ _ _ _ _ _ Hf t Ht) as [(due & Hd & _)|(p' & Hd & Hpend)];
    rewrite Hd in Hp; [done|]. by injection Hp as <-.
Qed.

(** The timer of a superseded call expires: the call returns at line 165. *)
Lemma Burst_expire_old (w : World) (i : nat) (t : Task) (due : Z) :
  Burst slot h period T cur olds base w →
  queue w !! i = Some t → t_at t = AwaitTimer due → t_context t ≠ cur →
  Burst slot h period T cur olds base (resume_at i (with_clock (Z.max (clock w) due) w)).
Proof.
  intros [Hw He Hc Hl Hh Hk Hq Hp Hlt Ho Hb] Hi Hd Hne.
  pose proof (list_elem_of_lookup_2 _ _ _ Hi) as Ht.
  destruct (Hq t Ht) as (_ & _ & due' & Hd' & Hdue & _ & Hcan).
  assert (due' = due) as -> by congruence. destruct (Hcan Hne) as [Hcan' _].
  rewrite (resume_at_timer_canceled i t); [|done|by rewrite (proj2 (timer_due_spec t due))|done].
  set (w' := emit _ _).
  split; observe_in w; try done.
  - apply Inv_emit, Inv_dequeue. by apply (Inv_frame w).
  - cbn. lia.
  - intros x Hx%list_elem_of_delete_inv. by apply Hq.
  - destruct Hp as (x & Hx & Hxc). exists x. split; [|done].
    apply (elem_of_delete_ne _ i x t); [done..|]. intros ->. done.
  - intros c Hin. cbn [trace queue w' emit with_queue with_clock].
    destruct (Ho c Hin) as [?|(x & Hx & Hxc & Hxd)].
    + left. apply elem_of_app. by left.
    + destruct (decide (x = t)) as [->|Hxt].
      * left. apply elem_of_app. right. rewrite Hxc. left.
      * right. exists x. repeat split; [|done..]. by apply (elem_of_delete_ne _ i x t).
  - subst w'. by rewrite invocations_emit, app_nil_r.
Qed.

(** The timer of the last call expires: its handler is invoked. *)
Lemma Burst_expire_last (w : World) (i : nat) (t : Task) :
  Burst slot h period T cur olds base w →
  queue w !! i = Some t → t_context t = cur →
  Fired slot h T cur olds base (resume_at i (with_clock (Z.max (clock w) T) w)).
Proof.
  intros [Hw He Hc Hl Hh Hk Hq Hp Hlt Ho Hb] Hi Hcur.
  pose proof (list_elem_of_lookup_2 _ _ _ Hi) as Ht.
  destruct (Hq t Ht) as (Hs & Hh' & due & Hd & _ & Hdue & _). specialize (Hdue Hcur). subst due.
  pose proof (Running_dequeue i t w Hw Hi) as Hr.
  set (w0 := with_queue (delete i) (with_clock (Z.max (clock w) T) w)).
  assert (Hl0 : is_canceled w0 (t_context t) = false) by (by rewrite Hcur).
  rewrite (resume_at_timer_live i t);
    [|done|by rewrite (proj2 (timer_due_spec t T))|by rewrite Hcur|by rewrite Hs].
  fold w0.
  assert (Hmono : ∀ c, is_canceled w c = true → is_canceled (Slots.trigger t w0) c = true).
  { intros c Hcc. unfold Slots.trigger. rewrite Hl0.
    destruct (hresult (t_handler t)); try done.
    change (is_canceled (emit ?e ?x) c) with (is_canceled x c).
    rewrite is_canceled_set_cancel. by case_decide. }
  split.
  - rewrite trigger_clock by done. cbn. lia.
  - rewrite trigger_queue by done. intros x [Hx|Hx]%elem_of_app.
    + left. cbn in Hx. pose proof (list_elem_of_delete_inv _ _ _ Hx) as Hxq.
      destruct (Hq x Hxq) as (_ & _ & due & Hxd & Hxdue & _ & Hcan).
      exists due. repeat split; [done..|]. apply Hmono, Hcan. intros Hxc.
      apply (run_fresh _ _ Hr). rewrite Hcur, <- Hxc. by apply list_elem_of_fmap_2.
    + right. unfold after_invoke_queue in Hx.
      destruct (hresult (t_handler t)) eqn:Hres; try by apply elem_of_nil in Hx.
      apply list_elem_of_singleton in Hx as ->. eexists. split; [done|].
      unfold promise_state, Slots.trigger. rewrite Hl0, Hres. cbn.
      by rewrite lookup_app_r, Nat.sub_diag by lia.
  - intros c Hin. rewrite trigger_trace, trigger_queue by done.
    destruct (Ho c Hin) as [?|(x & Hx & Hxc & Hxd)].
    + left. apply elem_of_app. by left.
    + right. exists x. repeat split; [|done..]. apply elem_of_app. left. cbn.
      apply (elem_of_delete_ne _ i x t); [done..|]. intros ->.
      apply Hlt in Hin. lia.
  - unfold invocations. rewrite trigger_trace by done. rewrite filter_app.
    fold (invocations w0). change (invocations w0) with (invocations w). rewrite Hb. f_equal.
    rewrite filter_cons_True by done. rewrite Hs, Hh', Hcur. f_equal.
    + f_equal. cbn. lia.
    + unfold after_invoke_trace. by destruct (hresult h).
Qed.
End BurstSteps.

(** * Further properties of the module *)

(** ** getOrCreateSlotInfo *)

(** X1: [getOrCreateSlotInfo] is a lookup that fills in the missing key.
    An existing slot is returned as stored and nothing changes; a missing
    slot is created idle (its context canceled, no [lastTriggered], no
    [executing]) and no other slot is touched; either way the returned
    record is then the one stored under the name, the slot is idle exactly
    if it was idle or missing before, and a second call returns the same
    record and changes nothing more. *)
Theorem getOrCreateSlotInfo_spec (slot : string) (w : World) :
  let w' := fst (Slots.getOrCreateSlotInfo slot w) in
  let info := snd (Slots.getOrCreateSlotInfo slot w) in
  (∀ i, MySlots w !! slot = Some i → w' = w ∧ info = i) ∧
  (MySlots w !! slot = None →
     lastTriggered info = None ∧ executing info = None ∧
     is_canceled w' (context info) = true ∧ queue w' = queue w ∧ trace w' = trace w) ∧
  MySlots w' !! slot = Some info ∧
  (∀ s, s ≠ slot → MySlots w' !! s = MySlots w !! s) ∧
  idle w' slot = idle w slot ∧
  Slots.getOrCreateSlotInfo slot w' = (w', info).
Proof.
  intros w' info. subst w' info.
  pose proof (getOrCreate_lookup slot w) as Hl.
  repeat split.
  - by rewrite (getOrCreate_found _ _ _ H).
  - by rewrite (getOrCreate_found _ _ _ H).
  - by rewrite (getOrCreate_fresh _ _ H).
  - by rewrite (getOrCreate_fresh _ _ H).
  - rewrite (getOrCreate_fresh _ _ H). unfold is_canceled. cbn.
    by rewrite lookup_app_r, Nat.sub_diag by lia.
  - by rewrite (getOrCreate_fresh _ _ H).
  - by rewrite (getOrCreate_fresh _ _ H).
  - done.
  - intros s Hs. destruct (MySlots w !! slot) as [j|] eqn:E.
    + by rewrite (getOrCreate_found _ _ _ E).
    + rewrite (getOrCreate_fresh _ _ E). cbn. by rewrite lookup_insert_ne.
  - rewrite <- (getOrCreate_idle slot w). unfold idle. by rewrite Hl.
  - by apply getOrCreate_found.
Qed.

Lemma getOrCreateSlotInfo_spec_witness :
  let w := Slots.start "foo" push 1000 jest_fn (init 0) in
  fst (Slots.getOrCreateSlotInfo "foo" w) = w
  ∧ snd (Slots.getOrCreateSlotInfo "foo" w) = mkInfo 1 None None.
Proof.
  intros w. apply (proj1 (getOrCreateSlotInfo_spec "foo" w)). reflexivity.
Defined.

(** ** Slots are independent records *)










(** ** Only the call holding the current context is live *)

Lemma trigger_invoke_context (t : Task) (w : World) (evs : list Event) c slot h time :
  trace (Slots.trigger t w) = trace w ++ evs → EvInvoke c slot h time ∈ evs →
  c = t_context t ∧ h = t_handler t.
Proof.
  destruct (is_canceled w (t_context t)) eqn:Hl.
  - unfold Slots.trigger. rewrite Hl. cbn. intros <-%app_inv_head.
    by intros [=]%list_elem_of_singleton.
  - rewrite trigger_trace by done. intros <-%app_inv_head.
    intros [[=]|Hin]%elem_of_cons; [by subst|].
    unfold after_invoke_trace in Hin.
    destruct (hresult (t_handler t));
      [by apply list_elem_of_singleton in Hin | by apply list_elem_of_singleton in Hin
      | by apply elem_of_nil in Hin].
Qed.

Lemma expire_invoke_context (t : Task) (w : World) (evs : list Event) c slot h time :
  trace (Slots.expire t w) = trace w ++ evs → EvInvoke c slot h time ∈ evs →
  c = t_context t ∧ h = t_handler t.
Proof.
  unfold Slots.expire. destruct (is_canceled w (t_context t)) eqn:Hl.
  { cbn. intros <-%app_inv_head. by intros [=]%list_elem_of_singleton. }
  destruct (executing_of w (t_slot t)) as [p|] eqn:He.
  { cbn. rewrite <- (app_nil_r (trace w)) at 1. intros <-%app_inv_head.
    by intros ?%elem_of_nil. }
  apply trigger_invoke_context.
Qed.

Lemma start_invoke_context (slot : string) (mode : Mode) (period : Z) (h : SlotHandler)
    (w : World) (evs : list Event) c s h' time :
  trace (Slots.start slot mode period h w) = trace w ++ evs → EvInvoke c s h' time ∈ evs →
  c = fresh_context slot w ∧ h' = h.
Proof.
  destruct (admits w slot mode) eqn:Ha.
  - rewrite start_admitted by done. cbn.
    destruct (Z.eqb_spec (effective_period w slot mode period) 0).
    + rewrite <- (installed_trace slot w). intros Htr Hin.
      by destruct (expire_invoke_context _ _ _ _ _ _ _ Htr Hin) as [-> ->].
    + unfold suspend. cbn [trace with_queue]. rewrite installed_trace.
      rewrite <- (app_nil_r (trace w)) at 1. intros <-%app_inv_head.
      by intros ?%elem_of_nil.
  - rewrite start_dropped by done. cbn. intros <-%app_inv_head.
    by intros [=]%list_elem_of_singleton.
Qed.

Lemma trigger_context_of (t : Task) (w : World) (s : string) :
  context_of (Slots.trigger t w) s = context_of w s.
Proof.
  unfold Slots.trigger. destruct (is_canceled w (t_context t)); [done|].
  unfold context_of, lookup_slot.
  destruct (hresult (t_handler t)); cbn; rewrite ?lookup_alter;
    repeat case_decide; subst; try done; by destruct (MySlots w !! t_slot t).
Qed.

Lemma expire_context_of (t : Task) (w : World) (s : string) :
  context_of (Slots.expire t w) s = context_of w s.
Proof.
  unfold Slots.expire. destruct (is_canceled w (t_context t)); [done|].
  destruct (executing_of w (t_slot t)); [done | apply trigger_context_of].
Qed.

Lemma NoDup_fmap_eq {A B} (f : A → B) (l : list A) (x y : A) :
  NoDup (f <$> l) → x ∈ l → y ∈ l → f x = f y → x = y.
Proof.
  induction l as [|a l IH]; cbn; [by intros _ ?%elem_of_nil|].
  intros [Ha Hnd]%NoDup_cons [->|Hx]%elem_of_cons [->|Hy]%elem_of_cons Hf; auto.
  - exfalso. apply Ha. rewrite Hf. by apply list_elem_of_fmap_2.
  - exfalso. apply Ha. rewrite <- Hf. by apply list_elem_of_fmap_2.
Qed.

(** X3: in every state the event loop can reach, a suspended call whose
    context is not canceled holds the context last written into
    [slotInfo.context]; so a slot has at most one suspended call that is
    not canceled, and a handler is only ever invoked by the call holding
    the slot's current context. *)
Theorem one_live_call_per_slot (w : World) :
  reachable w →
  (∀ t, t ∈ queue w → is_canceled w (t_context t) = false →
     context_of w (t_slot t) = Some (t_context t)) ∧
  (∀ t t', t ∈ queue w → t' ∈ queue w → t_slot t = t_slot t' →
     is_canceled w (t_context t) = false → is_canceled w (t_context t') = false →
     t = t') ∧
  (∀ o w' evs c slot h time,
     exec o w = Some w' → trace w' = trace w ++ evs → EvInvoke c slot h time ∈ evs →
     context_of w' slot = Some c).
Proof.
  intros Hw%reachable_Inv. split; [|split].
  - apply Hw.
  - intros t t' Ht Ht' Hs Hl Hl'.
    apply (NoDup_fmap_eq t_context (queue w)); [apply Hw | done..|].
    apply (inv_current _ Hw) in Hl, Hl'; try done. rewrite Hs, Hl' in Hl. by injection Hl.
  - intros o w' evs c slot h time He Htr Hin.
    destruct o as [sl mode period hd|sl|sl period|d|p ok|i]; cbn in He.
    + injection He as <-.
      destruct (start_invoke _ _ _ _ _ _ _ _ _ _ Htr Hin) as (-> & Hex & _ & Ha & Hp).
      destruct (start_invoke_context _ _ _ _ _ _ _ _ _ _ Htr Hin) as [-> _].
      rewrite start_admitted, Hp by done. cbn.
      rewrite expire_context_of. unfold context_of, lookup_slot.
      by rewrite installed_lookup.
    + exfalso. injection He as <-. rewrite cancel_unfold in Htr. cbn in Htr.
      assert (trace (fst (Slots.getOrCreateSlotInfo sl w)) = trace w) as Heq.
      { destruct (MySlots w !! sl) as [j|] eqn:E.
        - by rewrite (getOrCreate_found _ _ _ E).
        - by rewrite (getOrCreate_fresh _ _ E). }
      rewrite Heq in Htr. rewrite <- (app_nil_r (trace w)) in Htr at 1.
      apply app_inv_head in Htr. subst. by apply elem_of_nil in Hin.
    + exfalso. injection He as <-. rewrite onCD_unfold in Htr. cbn in Htr.
      assert (trace (fst (Slots.getOrCreateSlotInfo sl w)) = trace w) as Heq.
      { destruct (MySlots w !! sl) as [j|] eqn:E.
        - by rewrite (getOrCreate_found _ _ _ E).
        - by rewrite (getOrCreate_fresh _ _ E). }
      rewrite Heq in Htr. rewrite <- (app_nil_r (trace w)) in Htr at 1.
      apply app_inv_head in Htr. subst. by apply elem_of_nil in Hin.
    + exfalso. destruct (0 <=? d)%Z; [|done]. injection He as <-. cbn in Htr.
      rewrite <- (app_nil_r (trace w)) in Htr at 1. apply app_inv_head in Htr. subst.
      by apply elem_of_nil in Hin.
    + exfalso. case_decide; [|done]. injection He as <-. cbn in Htr.
      rewrite <- (app_nil_r (trace w)) in Htr at 1. apply app_inv_head in Htr. subst.
      by apply elem_of_nil in Hin.
    + destruct (queue w !! i) as [t|] eqn:Hi; [|done].
      destruct (ready w t && first_in_line (queue w) i t); [|done].
      injection He as <-. pose proof (list_elem_of_lookup_2 _ _ _ Hi) as Ht.
      revert Htr. unfold resume_at. rewrite Hi. unfold Slots.resume.
      change (trace w) with (trace (with_queue (delete i) w)).
      destruct (t_at t) as [due|q|p] eqn:Hat.
      * intros Htr.
        destruct (expire_invoke _ _ _ _ _ _ _ Htr Hin) as (-> & Hl & _).
        destruct (expire_invoke_context _ _ _ _ _ _ _ Htr Hin) as [-> _].
        rewrite expire_context_of. by apply (inv_current _ Hw t Ht).
      * destruct (outcome w t).
        -- intros Htr.
           destruct (trigger_invoke _ _ _ _ _ _ _ Htr Hin) as (-> & Hl & _).
           destruct (trigger_invoke_context _ _ _ _ _ _ _ Htr Hin) as [-> _].
           rewrite trigger_context_of. by apply (inv_current _ Hw t Ht).
        -- cbn. intros <-%app_inv_head. by apply list_elem_of_singleton in Hin.
      * destruct (outcome w t); cbn; intros <-%app_inv_head;
          by apply list_elem_of_singleton in Hin.
Qed.

Lemma one_live_call_per_slot_witness :
  let w := Slots.start "foo" ignore 1000 jest_fn (Slots.start "foo" push 1000 jest_fn (init 0)) in
  context_of w "foo" = Some 1.
Proof.
  intros w.
  apply (proj1 (one_live_call_per_slot w
    (ex_intro _ 0%Z (ex_intro _ [Start "foo" push 1000 jest_fn; Start "foo" ignore 1000 jest_fn]
       eq_refl)))
    (mkTask "foo" 1 jest_fn (AwaitTimer 1000))).
  - vm_compute. left.
  - reflexivity.
Defined.

(** ** A canceled call never runs *)

Lemma flags_kept_refl (w : World) : flags_kept w w.
Proof. by intros c. Qed.

Lemma flags_kept_trans (w1 w2 w3 : World) :
  flags_kept w1 w2 → flags_kept w2 w3 → flags_kept w1 w3.
Proof. intros H1 H2 c Hc. by apply H2, H1. Qed.

Lemma flags_kept_heap (w w' : World) : heap w' = heap w → flags_kept w w'.
Proof. intros Hh c. unfold is_canceled. by rewrite Hh. Qed.

Lemma flags_kept_set_cancel (c : ContextRef) (w : World) : flags_kept w (set_cancel c w).
Proof. intros x Hx. rewrite is_canceled_set_cancel. by case_decide. Qed.

Lemma flags_kept_alloc (x : SlotContext) (w : World) : flags_kept w (alloc x w).
Proof.
  intros c Hc. rewrite is_canceled_alloc; [done|].
  apply is_canceled_true_lookup in Hc. by apply lookup_lt_Some in Hc.
Qed.

Lemma flags_kept_getOrCreate (slot : string) (w : World) :
  flags_kept w (fst (Slots.getOrCreateSlotInfo slot w)).
Proof.
  destruct (MySlots w !! slot) as [j|] eqn:E.
  - rewrite (getOrCreate_found _ _ _ E). apply flags_kept_refl.
  - rewrite (getOrCreate_fresh _ _ E). apply (flags_kept_alloc (mkContext (Some true)) w).
Qed.

Lemma flags_kept_installed (slot : string) (w : World) : flags_kept w (installed slot w).
Proof.
  unfold installed.
  eapply flags_kept_trans; [apply (flags_kept_getOrCreate slot)|].
  eapply flags_kept_trans; [apply (flags_kept_alloc (mkContext None))|].
  eapply flags_kept_trans; [apply flags_kept_set_cancel|]. by apply flags_kept_heap.
Qed.

Lemma flags_kept_trigger (t : Task) (w : World) : flags_kept w (Slots.trigger t w).
Proof.
  unfold Slots.trigger. destruct (is_canceled w (t_context t)); [by apply flags_kept_heap|].
  destruct (hresult (t_handler t)); try by apply flags_kept_heap.
  eapply flags_kept_trans; [|by apply flags_kept_heap].
  eapply flags_kept_trans; [|apply flags_kept_set_cancel]. by apply flags_kept_heap.
Qed.

Lemma flags_kept_expire (t : Task) (w : World) : flags_kept w (Slots.expire t w).
Proof.
  unfold Slots.expire. destruct (is_canceled w (t_context t)); [by apply flags_kept_heap|].
  destruct (executing_of w (t_slot t)); [by apply flags_kept_heap | apply flags_kept_trigger].
Qed.

Lemma flags_kept_finish (t : Task) (w : World) : flags_kept w (Slots.finish t w).
Proof.
  unfold Slots.finish. eapply flags_kept_trans; [|by apply flags_kept_heap].
  eapply flags_kept_trans; [|apply flags_kept_set_cancel]. by apply flags_kept_heap.
Qed.

Lemma flags_kept_start (slot : string) (mode : Mode) (period : Z) (h : SlotHandler)
    (w : World) : flags_kept w (Slots.start slot mode period h w).
Proof.
  destruct (admits w slot mode) eqn:Ha.
  - rewrite start_admitted by done. cbn.
    eapply flags_kept_trans; [apply (flags_kept_installed slot)|].
    destruct (effective_period w slot mode period =? 0)%Z;
      [apply flags_kept_expire | by apply flags_kept_heap].
  - rewrite start_dropped by done.
    eapply flags_kept_trans; [apply (flags_kept_alloc (mkContext None))|].
    by apply flags_kept_heap.
Qed.

Lemma flags_kept_cancel (slot : string) (w : World) : flags_kept w (Slots.cancel slot w).
Proof.
  rewrite cancel_unfold.
  eapply flags_kept_trans; [apply (flags_kept_getOrCreate slot) | apply flags_kept_set_cancel].
Qed.

Lemma flags_kept_exec (o : Op) (w w' : World) : exec o w = Some w' → flags_kept w w'.
Proof.
  destruct o as [sl mode period hd|sl|sl period|d|p ok|i]; cbn.
  - intros [= <-]. apply flags_kept_start.
  - intros [= <-]. apply flags_kept_cancel.
  - intros [= <-]. rewrite onCD_unfold. apply (flags_kept_getOrCreate sl).
  - case_match; [|done]. intros [= <-]. by apply flags_kept_heap.
  - case_decide; [|done]. intros [= <-]. by apply flags_kept_heap.
  - destruct (queue w !! i) as [t|] eqn:Hi; [|done].
    destruct (ready w t && first_in_line (queue w) i t); [|done].
    intros [= <-]. unfold resume_at. rewrite Hi. unfold Slots.resume.
    eapply (flags_kept_trans _ (with_queue (delete i) w)); [by apply flags_kept_heap|].
    destruct (t_at t), (outcome w t);
      try apply flags_kept_expire; try apply flags_kept_trigger;
      try apply flags_kept_finish; by apply flags_kept_heap.
Qed.

Lemma trace_extends_refl (w w' : World) : trace w' = trace w → trace_extends w w'.
Proof. intros Ht. exists []. by rewrite app_nil_r. Qed.

Lemma trace_extends_trans (w1 w2 w3 : World) :
  trace_extends w1 w2 → trace_extends w2 w3 → trace_extends w1 w3.
Proof. intros [e1 H1] [e2 H2]. exists (e1 ++ e2). by rewrite H2, H1, app_assoc. Qed.

Lemma trace_extends_emit (e : Event) (w : World) : trace_extends w (emit e w).
Proof. by exists [e]. Qed.

Lemma trace_extends_trigger (t : Task) (w : World) : trace_extends w (Slots.trigger t w).
Proof.
  destruct (is_canceled w (t_context t)) eqn:Hl.
  - unfold Slots.trigger. rewrite Hl. apply trace_extends_emit.
  - eexists. by apply trigger_trace.
Qed.

Lemma trace_extends_expire (t : Task) (w : World) : trace_extends w (Slots.expire t w).
Proof.
  unfold Slots.expire. destruct (is_canceled w (t_context t)); [apply trace_extends_emit|].
  destruct (executing_of w (t_slot t)); [by apply trace_extends_refl|].
  apply trace_extends_trigger.
Qed.

Lemma trace_extends_finish (t : Task) (w : World) : trace_extends w (Slots.finish t w).
Proof. by eexists. Qed.

Lemma getOrCreate_trace (slot : string) (w : World) :
  trace (fst (Slots.getOrCreateSlotInfo slot w)) = trace w.
Proof.
  destruct (MySlots w !! slot) as [j|] eqn:E.
  - by rewrite (getOrCreate_found _ _ _ E).
  - by rewrite (getOrCreate_fresh _ _ E).
Qed.

Lemma trace_extends_exec (o : Op) (w w' : World) : exec o w = Some w' → trace_extends w w'.
Proof.
  destruct o as [sl mode period hd|sl|sl period|d|p ok|i]; cbn.
  - intros [= <-]. destruct (admits w sl mode) eqn:Ha.
    + rewrite start_admitted by done. cbn.
      eapply (trace_extends_trans _ (installed sl w));
        [apply trace_extends_refl, installed_trace|].
      destruct (effective_period w sl mode period =? 0)%Z;
        [apply trace_extends_expire | by apply trace_extends_refl].
    + rewrite start_dropped by done. by eexists.
  - intros [= <-]. apply trace_extends_refl. rewrite cancel_unfold. apply getOrCreate_trace.
  - intros [= <-]. apply trace_extends_refl. rewrite onCD_unfold. apply getOrCreate_trace.
  - case_match; [|done]. intros [= <-]. by apply trace_extends_refl.
  - case_decide; [|done]. intros [= <-]. by apply trace_extends_refl.
  - destruct (queue w !! i) as [t|] eqn:Hi; [|done].
    destruct (ready w t && first_in_line (queue w) i t); [|done].
    intros [= <-]. unfold resume_at. rewrite Hi. unfold Slots.resume.
    eapply (trace_extends_trans _ (with_queue (delete i) w)); [by apply trace_extends_refl|].
    destruct (t_at t), (outcome w t);
      try apply trace_extends_expire; try apply trace_extends_trigger;
      try apply trace_extends_finish; apply trace_extends_emit.
Qed.

(** The call that invokes a handler has a context that is not canceled. *)
Lemma exec_invoke_live (o : Op) (w w' : World) (evs : list Event) c slot h time :
  exec o w = Some w' → trace w' = trace w ++ evs → EvInvoke c slot h time ∈ evs →
  is_canceled w c = false.
Proof.
  intros He Htr Hin. destruct o as [sl mode period hd|sl|sl period|d|p ok|i]; cbn in He.
  - injection He as <-.
    destruct (start_invoke_context _ _ _ _ _ _ _ _ _ _ Htr Hin) as [-> _].
    unfold is_canceled. rewrite lookup_ge_None_2; [done|].
    apply (getOrCreate_heap_length sl w).
  - exfalso. injection He as <-. rewrite cancel_unfold in Htr. cbn in Htr.
    rewrite getOrCreate_trace in Htr. rewrite <- (app_nil_r (trace w)) in Htr at 1.
    apply app_inv_head in Htr. subst. by apply elem_of_nil in Hin.
  - exfalso. injection He as <-. rewrite onCD_unfold in Htr. cbn in Htr.
    rewrite getOrCreate_trace in Htr. rewrite <- (app_nil_r (trace w)) in Htr at 1.
    apply app_inv_head in Htr. subst. by apply elem_of_nil in Hin.
  - exfalso. destruct (0 <=? d)%Z; [|done]. injection He as <-. cbn in Htr.
    rewrite <- (app_nil_r (trace w)) in Htr at 1. apply app_inv_head in Htr. subst.
    by apply elem_of_nil in Hin.
  - exfalso. case_decide; [|done]. injection He as <-. cbn in Htr.
    rewrite <- (app_nil_r (trace w)) in Htr at 1. apply app_inv_head in Htr. subst.
    by apply elem_of_nil in Hin.
  - destruct (queue w !! i) as [t|] eqn:Hi; [|done].
    destruct (ready w t && first_in_line (queue w) i t); [|done].
    injection He as <-. revert Htr. unfold resume_at. rewrite Hi. unfold Slots.resume.
    change (trace w) with (trace (with_queue (delete i) w)).
    destruct (t_at t) as [due|q|p] eqn:Hat.
    + intros Htr. destruct (expire_invoke _ _ _ _ _ _ _ Htr Hin) as (_ & Hl & _).
      by destruct (expire_invoke_context _ _ _ _ _ _ _ Htr Hin) as [-> _].
    + destruct (outcome w t).
      * intros Htr. destruct (trigger_invoke _ _ _ _ _ _ _ Htr Hin) as (_ & Hl & _).
        by destruct (trigger_invoke_context _ _ _ _ _ _ _ Htr Hin) as [-> _].
      * cbn. intros <-%app_inv_head. by apply list_elem_of_singleton in Hin.
    + destruct (outcome w t); cbn; intros <-%app_inv_head;
        by apply list_elem_of_singleton in Hin.
Qed.

(** X4: a context that is canceled stays canceled, and the call it belongs
    to never invokes its handler: along every run of the event loop from a
    state in which the context [c] is canceled, [c] is canceled at the end
    and no invocation with [c] is added to the trace. In particular
    [cancel] silences every call that is suspended on the slot: after
    [cancel(slot)], whatever the event loop does, no call that was
    suspended on that slot invokes its handler (its timer still expires,
    and an execution already in flight still runs to its end). *)
Theorem canceled_never_runs :
  (∀ ops w w' c,
     run ops w = Some w' → is_canceled w c = true →
     is_canceled w' c = true ∧
     ∃ evs, trace w' = trace w ++ evs ∧ ∀ slot h time, EvInvoke c slot h time ∉ evs) ∧
  (∀ slot t ops w w',
     reachable w → t ∈ queue w → t_slot t = slot →
     run ops (Slots.cancel slot w) = Some w' →
     ∃ evs, trace w' = trace w ++ evs ∧ ∀ s h time, EvInvoke (t_context t) s h time ∉ evs).
Proof.
  assert (Hrun : ∀ ops w w' c,
     run ops w = Some w' → is_canceled w c = true →
     is_canceled w' c = true ∧
     ∃ evs, trace w' = trace w ++ evs ∧ ∀ slot h time, EvInvoke c slot h time ∉ evs).
  { intros ops. induction ops as [|o ops IH]; intros w w' c; cbn.
    - intros [= <-] Hc. split; [done|]. exists []. rewrite app_nil_r. split; [done|].
      by intros ??? ?%elem_of_nil.
    - destruct (exec o w) as [w1|] eqn:E; [|done]. cbn. intros Hr Hc.
      pose proof (flags_kept_exec o w w1 E c Hc) as Hc1.
      destruct (trace_extends_exec o w w1 E) as [e1 H1].
      destruct (IH w1 w' c Hr Hc1) as (Hc' & e2 & H2 & Hno). split; [done|].
      exists (e1 ++ e2). rewrite H2, H1, app_assoc. split; [done|].
      intros slot h time [Hin|Hin]%elem_of_app; [|by apply (Hno slot h time)].
      pose proof (exec_invoke_live o w w1 e1 c slot h time E H1 Hin). congruence. }
  split; [exact Hrun|].
  intros slot t ops w w' Hw%reachable_Inv Ht Hs Hr.
  assert (is_canceled (Slots.cancel slot w) (t_context t) = true) as Hc.
  { destruct (inv_slot_exists _ Hw t Ht) as [i Hi]. rewrite Hs in Hi.
    rewrite cancel_unfold, (getOrCreate_found _ _ _ Hi). cbn.
    rewrite is_canceled_set_cancel. case_decide as Hd; [done|].
    destruct (is_canceled w (t_context t)) eqn:Hl; [done|exfalso].
    apply (inv_current _ Hw t Ht) in Hl. unfold context_of, lookup_slot in Hl.
    rewrite Hs, Hi in Hl. injection Hl as Hl. apply Hd. split; [done|].
    rewrite Hl. by apply (inv_tasks_alloc _ Hw). }
  destruct (Hrun ops _ w' _ Hr Hc) as (_ & evs & Htr & Hno).
  exists evs. split; [|done]. rewrite Htr. f_equal.
  rewrite cancel_unfold. apply getOrCreate_trace.
Qed.

Lemma canceled_never_runs_witness :
  let w := Slots.start "foo" cooldown 1000 jest_fn
             (Slots.start "foo" cooldown 1000 jest_fn (init 10000)) in
  ∃ evs, trace (resume_at 0 (with_clock 11000 (Slots.cancel "foo" w))) = trace w ++ evs
         ∧ ∀ s h time, EvInvoke 2 s h time ∉ evs.
Proof.
  intros w.
  apply (proj2 canceled_never_runs "foo" (mkTask "foo" 2 jest_fn (AwaitTimer 11000))
           [Elapse 1000; Resume 0] w).
  - exists 10000%Z, [Start "foo" cooldown 1000 jest_fn; Start "foo" cooldown 1000 jest_fn].
    vm_compute. reflexivity.
  - vm_compute. left.
  - reflexivity.
  - vm_compute. reflexivity.
Defined.

(** ** lastTriggered lies in the past *)

Lemma past_trigger (t : Task) (w : World) :
  triggered_in_past w → triggered_in_past (Slots.trigger t w).
Proof.
  intros Hw. destruct (is_canceled w (t_context t)) eqn:Hl.
  { unfold Slots.trigger. rewrite Hl. exact Hw. }
  intros s x. rewrite trigger_lastTriggered_of, trigger_clock by done.
  case_decide; [subst|apply Hw]. unfold lookup_slot.
  destruct (lastTriggered_of w (t_slot t)) as [y|] eqn:E.
  - specialize (Hw _ _ E). destruct (MySlots w !! t_slot t); [|done]. cbn. intros [= <-]. lia.
  - destruct (MySlots w !! t_slot t); [|done]. cbn. intros [= <-]. lia.
Qed.

Lemma past_expire (t : Task) (w : World) :
  triggered_in_past w → triggered_in_past (Slots.expire t w).
Proof.
  intros Hw. unfold Slots.expire. destruct (is_canceled w (t_context t)); [exact Hw|].
  destruct (executing_of w (t_slot t)); [exact Hw | by apply past_trigger].
Qed.

Lemma past_installed (slot : string) (w : World) :
  triggered_in_past w → triggered_in_past (installed slot w).
Proof. intros Hw s x. rewrite installed_lastTriggered_of, installed_clock. apply Hw. Qed.

Lemma past_start (slot : string) (mode : Mode) (period : Z) (h : SlotHandler) (w : World) :
  triggered_in_past w → triggered_in_past (Slots.start slot mode period h w).
Proof.
  intros Hw. destruct (admits w slot mode) eqn:Ha.
  - rewrite start_admitted by done. cbn. apply (past_installed slot) in Hw.
    destruct (effective_period w slot mode period =? 0)%Z; [by apply past_expire | exact Hw].
  - rewrite start_dropped by done. exact Hw.
Qed.

Lemma past_exec (o : Op) (w w' : World) :
  triggered_in_past w → exec o w = Some w' → triggered_in_past w'.
Proof.
  intros Hw. destruct o as [sl mode period hd|sl|sl period|d|p ok|i]; cbn.
  - intros [= <-]. by apply past_start.
  - intros [= <-] s x. rewrite cancel_unfold.
    change (lastTriggered_of (set_cancel ?c ?y) s) with (lastTriggered_of y s).
    change (clock (set_cancel ?c ?y)) with (clock y).
    rewrite getOrCreate_lastTriggered_of, getOrCreate_clock. apply Hw.
  - intros [= <-] s x. rewrite onCD_unfold. cbn [fst].
    rewrite getOrCreate_lastTriggered_of, getOrCreate_clock. apply Hw.
  - destruct (Z.leb_spec 0 d); [|done]. intros [= <-] s x Hx. specialize (Hw s x Hx).
    cbn. lia.
  - case_decide; [|done]. intros [= <-]. exact Hw.
  - destruct (queue w !! i) as [t|] eqn:Hi; [|done].
    destruct (ready w t && first_in_line (queue w) i t); [|done].
    intros [= <-]. unfold resume_at. rewrite Hi. unfold Slots.resume.
    assert (triggered_in_past (with_queue (delete i) w)) as Hd by exact Hw.
    destruct (t_at t), (outcome w t);
      try (by apply past_expire); try (by apply past_trigger); try exact Hd.
    all: intros s x; rewrite finish_lastTriggered_of; apply Hd.
Qed.

Lemma past_run (ops : list Op) (w w' : World) :
  triggered_in_past w → run ops w = Some w' → triggered_in_past w'.
Proof.
  revert w. induction ops as [|o ops IH]; intros w Hw; cbn.
  - by intros [= <-].
  - destruct (exec o w) as [w1|] eqn:E; [|done]. cbn. apply IH. by apply (past_exec o w).
Qed.

(** X5: in every state the event loop can reach, [lastTriggered] of a slot
    is not later than the current time; hence the period a [cooldown] call
    recomputes for a slot that has fired lies between 0 and the period it
    was given. *)
Theorem lastTriggered_in_past (w : World) :
  reachable w →
  (∀ slot t, lastTriggered_of w slot = Some t → (t ≤ clock w)%Z) ∧
  (∀ slot period t, lastTriggered_of w slot = Some t → (0 ≤ period)%Z →
     (0 ≤ effective_period w slot cooldown period ≤ period)%Z).
Proof.
  intros (t0 & ops & Hr).
  assert (triggered_in_past w) as Hp.
  { apply (past_run ops (init t0)); [|done]. intros s x. by cbn. }
  split; [exact Hp|]. intros slot period t Ht Hpos. specialize (Hp slot t Ht).
  unfold effective_period, timeToNext. rewrite Ht. cbn. lia.
Qed.

Lemma lastTriggered_in_past_witness :
  let w := with_clock 500 (Slots.start "foo" cooldown 1000 jest_fn (init 0)) in
  (0 ≤ effective_period w "foo" cooldown 1000 ≤ 1000)%Z.
Proof.
  intros w. apply (proj2 (lastTriggered_in_past w
    (ex_intro _ 0%Z (ex_intro _ [Start "foo" cooldown 1000 jest_fn; Elapse 500] eq_refl)))
    "foo" 1000%Z 0%Z).
  - reflexivity.
  - lia.
Defined.

(** ** Completion frees the slot *)

Lemma trigger_void_canceled (t : Task) (w : World) :
  is_canceled w (t_context t) = false → hresult (t_handler t) = ReturnsVoid →
  t_context t < length (heap w) →
  is_canceled (Slots.trigger t w) (t_context t) = true.
Proof.
  intros Hl Hh Hc. unfold Slots.trigger. rewrite Hl, Hh.
  change (is_canceled (emit ?e ?x) ?c) with (is_canceled x c).
  rewrite is_canceled_set_cancel. by rewrite decide_True.
Qed.

Lemma start_immediate_idle (slot : string) (mode : Mode) (period : Z) (h : SlotHandler)
    (w : World) :
  contexts_allocated w → admits w slot mode = true →
  effective_period w slot mode period = 0%Z → executing_of w slot = None →
  hresult h = ReturnsVoid →
  idle (Slots.start slot mode period h w) slot = true.
Proof.
  intros Hw Ha Hp He Hh. rewrite start_admitted by done. cbn. rewrite Hp. cbn.
  pose proof (installed_fresh_live slot w Hw) as Hl.
  set (t := mkTask slot (fresh_context slot w) h (AwaitTimer (clock w))).
  rewrite expire_free by (by rewrite ?installed_executing_of).
  pose proof (trigger_context_of t (installed slot w) slot) as Hc.
  unfold context_of, lookup_slot in Hc. rewrite installed_lookup in Hc. cbn in Hc.
  unfold idle. destruct (MySlots (Slots.trigger t (installed slot w)) !! slot) as [i|]; [|done].
  injection Hc as ->.
  apply (trigger_void_canceled t); [done..|]. cbn [t_context t].
  rewrite installed_heap_length. lia.
Qed.

(** X6: a handler that returns (no promise, no exception) leaves the slot
    idle at once, since line 192 marks the call's context canceled before
    [start] returns. So [n] calls [start(slot, "ignore", 0, handler)] on a
    slot that is idle with no execution in flight invoke the handler [n]
    times, each inside its call, and leave the slot idle: none of them is
    dropped. *)
Theorem ignore_zero_fires_each (n : nat) (slot : string) (h : SlotHandler) (w : World) :
  reachable w → idle w slot = true → executing_of w slot = None →
  hresult h = ReturnsVoid →
  invocations (ignores0 n slot h w) =
    invocations w ++ ((λ k, EvInvoke (fresh_context slot w + k) slot h (clock w)) <$> seq 0 n)
  ∧ idle (ignores0 n slot h w) slot = true.
Proof.
  intros Hr%reachable_Inv. pose proof (inv_slots_alloc _ Hr) as Hw. clear Hr.
  revert w Hw. induction n as [|n IH]; intros w Hw Hi He Hh; cbn.
  { by rewrite app_nil_r. }
  destruct (start_immediate slot ignore 0 h w Hw Hi eq_refl He)
    as (Htr & Hq & Hc & Hlt & Hex & Hal & Hfr).
  pose proof (start_immediate_idle slot ignore 0 h w Hw Hi eq_refl He Hh) as Hi'.
  rewrite Hh in Hex. rewrite decide_False in Hex by done.
  destruct (IH _ Hal Hi' Hex Hh) as [-> ->]. split; [|done].
  assert (invocations (Slots.start slot ignore 0 h w)
          = invocations w ++ [EvInvoke (fresh_context slot w) slot h (clock w)]) as ->.
  { unfold invocations. rewrite Htr, filter_app, filter_cons_True by done. do 2 f_equal.
    unfold after_invoke_trace. by rewrite Hh. }
  rewrite <- app_assoc. cbn. rewrite Nat.add_0_r. do 2 f_equal.
  rewrite <- fmap_S_seq, <- list_fmap_compose. apply list_fmap_ext. intros _ k _. cbn.
  rewrite Hc, Hfr. f_equal. lia.
Qed.

Lemma ignore_zero_fires_each_witness :
  invocations (ignores0 3 "foo" jest_fn (init 0)) =
    [EvInvoke 1 "foo" jest_fn 0; EvInvoke 2 "foo" jest_fn 0; EvInvoke 3 "foo" jest_fn 0].
Proof.
  apply (ignore_zero_fires_each 3 "foo" jest_fn (init 0)); try reflexivity.
  exists 0%Z, []. reflexivity.
Defined.

Lemma resume_at_fulfilled (i : nat) (t : Task) (w : World) (p : PromiseRef) :
  queue w !! i = Some t → t_at t = AwaitHandler p → promise_state w p = Fulfilled →
  resume_at i w = Slots.finish t (with_queue (delete i) w).
Proof.
  intros Hi Ha Hp. unfold resume_at, outcome, Slots.resume, awaited. rewrite Hi, Ha, Hp.
  by rewrite bool_decide_true.
Qed.

(** X7: when the promise of a handler has been fulfilled and its call
    resumes, the slot is released: [executing] is cleared, no execution is
    in flight on the slot, the context of the call is canceled and the call
    returns; if no later call has taken over the slot, the slot is idle
    again, so that the next [ignore] call is admitted. *)
Theorem completion_releases_slot (i : nat) (t : Task) (p : PromiseRef) (w : World) :
  reachable w → queue w !! i = Some t → t_at t = AwaitHandler p →
  promise_state w p = Fulfilled →
  let w' := resume_at i w in
  executing_of w' (t_slot t) = None ∧
  executions w' (t_slot t) = [] ∧
  is_canceled w' (t_context t) = true ∧
  trace w' = trace w ++ [EvReturn (t_context t) Completed] ∧
  queue w' = delete i (queue w) ∧
  (context_of w (t_slot t) = Some (t_context t) → idle w' (t_slot t) = true).
Proof.
  intros Hw%reachable_Inv Hi Ha Hp w'. subst w'.
  pose proof (list_elem_of_lookup_2 _ _ _ Hi) as Ht.
  pose proof (Running_dequeue i t w Hw Hi) as Hr.
  destruct (inv_slot_exists _ Hw t Ht) as [info Hinfo].
  rewrite (resume_at_fulfilled i t w p) by done.
  assert (Hcan : is_canceled (Slots.finish t (with_queue (delete i) w)) (t_context t) = true).
  { unfold Slots.finish.
    change (is_canceled (emit ?e ?x) ?c) with (is_canceled x c).
    rewrite is_canceled_set_cancel. rewrite decide_True; [done|]. split; [done|].
    by apply (inv_tasks_alloc _ Hw). }
  repeat split; try done.
  - unfold Slots.finish, executing_of, lookup_slot. cbn.
    by rewrite lookup_alter_eq, Hinfo.
  - apply no_execution_executions. intros o Ho. cbn in Ho.
    destruct (is_execution (t_slot t) o) eqn:Hex; [exfalso|done].
    assert (is_execution (t_slot t) t = true) as Hext by (apply is_execution_spec; eauto).
    pose proof (inv_owner_unique _ Hw t o Ht (list_elem_of_delete_inv _ _ _ Ho) Hext Hex) as <-.
    apply (run_fresh _ _ Hr). by apply list_elem_of_fmap_2.
  - intros Hc. unfold idle. unfold context_of, lookup_slot in Hc. rewrite Hinfo in Hc.
    injection Hc as Hc. unfold Slots.finish. cbn [MySlots emit set_cancel with_heap
      set_executing with_slots with_queue].
    rewrite lookup_alter_eq, Hinfo. cbn. by rewrite Hc.
Qed.

Lemma completion_releases_slot_witness :
  let w0 := Slots.start "foo" ignore 0 jest_fn_async (init 0) in
  let w := with_promises (λ ps, <[0 := Fulfilled]> ps) w0 in
  idle (resume_at 0 w) "foo" = true.
Proof.
  intros w0 w.
  apply (completion_releases_slot 0 (mkTask "foo" 1 jest_fn_async (AwaitHandler 0)) 0 w).
  - exists 0%Z, [Start "foo" ignore 0 jest_fn_async; Settle 0 true]. vm_compute. reflexivity.
  - vm_compute. reflexivity.
  - reflexivity.
  - vm_compute. reflexivity.
  - vm_compute. reflexivity.
Defined.

(** ** A call with a period only schedules *)

Lemma installed_supersedes (slot : string) (w : World) (t : Task) :
  Inv w → t ∈ queue w → t_slot t = slot →
  is_canceled (installed slot w) (t_context t) = true.
Proof.
  intros Hw Ht Hs.
  destruct (inv_slot_exists _ Hw t Ht) as [i Hi]. rewrite Hs in Hi.
  pose proof (inv_tasks_alloc _ Hw t Ht) as Hal.
  rewrite installed_old_canceled
    by (unfold fresh_context; rewrite (getOrCreate_found _ _ _ Hi); done).
  rewrite (getOrCreate_found _ _ _ Hi). cbn. case_decide as Hd; [done|].
  destruct (is_canceled w (t_context t)) eqn:Hl; [done|exfalso].
  apply (inv_current _ Hw t Ht) in Hl. unfold context_of, lookup_slot in Hl.
  rewrite Hs, Hi in Hl. injection Hl as Hl. by apply Hd.
Qed.

(** X8: an admitted call of [start] whose period is not 0 invokes nothing
    and records nothing: it installs its fresh context as the current one,
    not canceled, registers one timer due [period] from now, and leaves
    [lastTriggered] and [executing] of every slot alone. The context that
    was current before is canceled, and so is every call suspended on the
    slot: the new call supersedes them all. *)
Theorem start_schedules_only (slot : string) (mode : Mode) (period : Z) (h : SlotHandler)
    (w : World) :
  reachable w → admits w slot mode = true → effective_period w slot mode period ≠ 0%Z →
  let c := fresh_context slot w in
  let w' := Slots.start slot mode period h w in
  trace w' = trace w ∧
  queue w' = queue w
             ++ [mkTask slot c h (AwaitTimer (clock w + effective_period w slot mode period))] ∧
  context_of w' slot = Some c ∧ is_canceled w' c = false ∧
  (∀ c0, context_of w slot = Some c0 → is_canceled w' c0 = true) ∧
  (∀ s, lastTriggered_of w' s = lastTriggered_of w s) ∧
  (∀ s, executing_of w' s = executing_of w s) ∧
  (∀ t, t ∈ queue w → t_slot t = slot → is_canceled w' (t_context t) = true).
Proof.
  intros Hw%reachable_Inv Ha Hp c w'. subst c w'. rewrite start_scheduled by done.
  set (t := mkTask _ _ _ _).
  change (is_canceled (suspend t ?x)) with (is_canceled x).
  change (lastTriggered_of (suspend t ?x)) with (lastTriggered_of x).
  change (executing_of (suspend t ?x)) with (executing_of x).
  change (context_of (suspend t ?x)) with (context_of x).
  cbn [trace queue suspend with_queue].
  rewrite installed_trace, installed_queue.
  repeat split; try done.
  - unfold context_of, lookup_slot. by rewrite installed_lookup.
  - apply installed_fresh_live, Hw.
  - intros c0 Hc0. unfold context_of, lookup_slot in Hc0.
    destruct (MySlots w !! slot) as [i|] eqn:Hi; [|done]. injection Hc0 as <-.
    pose proof (inv_slots_alloc _ Hw slot i Hi) as Hal.
    rewrite installed_old_canceled
      by (unfold fresh_context; rewrite (getOrCreate_found _ _ _ Hi); done).
    rewrite (getOrCreate_found _ _ _ Hi). cbn. by rewrite decide_True.
  - apply installed_lastTriggered_of.
  - apply installed_executing_of.
  - intros x Hx Hs. by apply installed_supersedes.
Qed.

Lemma start_schedules_only_witness :
  let w := Slots.start "foo" ignore 1000 jest_fn (init 0) in
  queue (Slots.start "foo" push 2000 jest_fn w)
    = queue w ++ [mkTask "foo" 2 jest_fn (AwaitTimer 2000)].
Proof.
  intros w. apply (start_schedules_only "foo" push 2000 jest_fn w).
  - exists 0%Z, [Start "foo" ignore 1000 jest_fn]. vm_compute. reflexivity.
  - reflexivity.
  - vm_compute. discriminate.
Defined.
